(** * Sampling strategies of [LLM-Sampling-Techniques.ipynb]

    A shallow embedding of the four sampler classes of the notebook
    ([GreedySampler], [TemperatureSampler], [TopKSampler], [TopPSampler])
    and of the torch primitives their [__call__] methods use.

    Conventions of the embedding.
    - A one-dimensional tensor is a [list]; index [i] is vocabulary id [i].
    - Finite tensor entries are rationals ([Q]).  The development has two
      levels.  The first computes exactly, with [exp] a parameter of which
      only positivity is used: it carries the properties that do not depend
      on how float32 rounds (what [argmax] returns, which exceptions are
      raised, where the returned index lies).  The second takes the float
      kernels of torch ([F.softmax], [torch.cumsum], [sum], the division)
      as parameters that may round, underflow to zero and absorb small
      terms; it carries the properties of [TopPSampler] that compare a
      cumulative sum with the threshold.  The kernels in binary32, rounding
      to nearest even, are an instance that runs.  Overflow is not
      modelled: the non-finite float values appear only in [tfloat], the
      element type used to run [torch.argmax] on vectors holding [inf] or
      [nan].
    - A Python exception is a value [Raise e] of the [result] type.
    - The order torch gives to equal entries in [torch.sort] and [torch.topk]
      is not fixed by torch (both are unstable by default): it is the
      parameter [tie] of the embedding.
    - The global random generator consumed by [torch.multinomial] is the
      parameter [draw]: a number that selects the outcome among the
      categories of positive weight. *)

From Stdlib Require Import List Bool Arith ZArith QArith Qabs Qround Qpower Lia Lqa.
From Stdlib Require Import Permutation Sorted.
From Stdlib Require Import Ascii.
Import ListNotations.

Open Scope Q_scope.

(** ** Exceptions and results *)

(** The exceptions the torch primitives raise on the paths the samplers
    take.  The notebook defines no exception class of its own. *)
Inductive exn : Type :=
| IndexError_argmax_empty        (* argmax(): expected reduction dim to have non-zero size *)
| IndexError_out_of_bounds       (* index out of range on tensor indexing *)
| RuntimeError_topk_range        (* topk: selected index k out of range *)
| RuntimeError_no_category       (* multinomial: cannot sample n_sample > prob_dist.size(-1) *)
| RuntimeError_invalid_probs     (* multinomial: probability tensor contains inf, nan or element < 0 *)
| RuntimeError_zero_sum.         (* multinomial: invalid multinomial distribution (sum of probabilities <= 0) *)

Inductive result (A : Type) : Type :=
| Ok (a : A)
| Raise (e : exn).

Arguments Ok {A} a.
Arguments Raise {A} e.

Definition bind {A B : Type} (r : result A) (f : A -> result B) : result B :=
  match r with
  | Ok a => f a
  | Raise e => Raise e
  end.

Notation "x <- r ;; k" := (bind r (fun x => k))
  (at level 61, r at next level, right associativity).

(** ** Tensor element types *)

(** float values with the IEEE specials; [Fin q] is an ordinary number. *)
Inductive tfloat : Type :=
| Fin (q : Q)
| PInf
| NInf
| NaN.

(** [tgt x y]: [x] ranks strictly above [y] in torch's max-like reductions. *)
Class TorchOrd (A : Type) : Type := tgt : A -> A -> bool.

Definition Qltb (x y : Q) : bool := negb (Qle_bool y x).

#[export] Instance TorchOrd_Q : TorchOrd Q := fun x y => Qltb y x.

(** torch ranks [nan] above every number in [argmax] ([greater_or_nan]). *)
#[export] Instance TorchOrd_tfloat : TorchOrd tfloat := fun x y =>
  match x, y with
  | NaN, NaN => false
  | NaN, _ => true
  | _, NaN => false
  | PInf, PInf => false
  | PInf, _ => true
  | _, PInf => false
  | Fin a, Fin b => Qltb b a
  | Fin _, NInf => true
  | NInf, _ => false
  end.

(** ** torch.argmax *)

(** One left-to-right pass keeping the best entry seen so far; an entry
    replaces it only when strictly greater, so the first maximal entry wins. *)
Fixpoint argmax_from {A : Type} `{TorchOrd A}
    (best : A) (best_i : nat) (i : nat) (l : list A) : nat :=
  match l with
  | [] => best_i
  | x :: t =>
      if tgt x best then argmax_from x i (S i) t
      else argmax_from best best_i (S i) t
  end.

(** [logits.argmax(dim=-1)]; torch refuses an empty reduction dimension. *)
Definition argmax {A : Type} `{TorchOrd A} (l : list A) : result nat :=
  match l with
  | [] => Raise IndexError_argmax_empty
  | x :: t => Ok (argmax_from x 0%nat 1%nat t)
  end.

(** ** GreedySampler *)

(** [class GreedySampler]: no [__init__], no state. *)
Definition GreedySampler_call {A : Type} `{TorchOrd A} (logits : list A) : result nat :=
  argmax logits.

(** ** Pure tensor primitives on finite tensors *)

(** [tensor.sum()]. *)
Definition tsum (x : list Q) : Q := fold_right Qplus 0 x.

Definition Qmaxb (a b : Q) : Q := if Qle_bool a b then b else a.

(** [torch.cumsum(x, dim=-1)], computed exactly. *)
Fixpoint cumsum_from (acc : Q) (x : list Q) : list Q :=
  match x with
  | [] => []
  | v :: t => (acc + v) :: cumsum_from (acc + v) t
  end.

Definition cumsum (x : list Q) : list Q := cumsum_from 0 x.

(** [torch.searchsorted(s, v)] with the default [right=False]: the first
    position [i] with [v <= s[i]], the length of [s] when there is none
    (torch finds it by bisection, [s] being sorted ascending). *)
Fixpoint searchsorted (s : list Q) (v : Q) : nat :=
  match s with
  | [] => 0%nat
  | c :: t => if Qle_bool v c then 0%nat else S (searchsorted t v)
  end.

(** The slice assignment [x[n:] = 0] (a slice that starts past the end is
    empty, as in Python). *)
Definition zero_from (n : nat) (x : list Q) : list Q :=
  firstn n x ++ repeat 0 (length x - n).

(** [t[i]] on a tensor of indices. *)
Definition tensor_index (t : list nat) (i : nat) : result nat :=
  match nth_error t i with
  | Some v => Ok v
  | None => Raise IndexError_out_of_bounds
  end.

(** [torch.multinomial(probs, num_samples=1)].  torch checks that there is a
    category, that no weight is negative and that the weights do not sum to
    zero; the category drawn has a positive weight.  [draw] picks it. *)
Definition support (probs : list Q) : list nat :=
  filter (fun i => Qltb 0 (nth i probs 0)) (seq 0 (length probs)).

Definition multinomial (probs : list Q) (draw : nat) : result nat :=
  match probs with
  | [] => Raise RuntimeError_no_category
  | _ :: _ =>
      if existsb (fun v => Qltb v 0) probs then Raise RuntimeError_invalid_probs
      else if Qeq_bool (tsum probs) 0 then Raise RuntimeError_zero_sum
      else Ok (nth (draw mod length (support probs)) (support probs) 0%nat)
  end.

(** ** Sampler configurations *)

(** [__init__] of each class only stores its argument. *)
Record TemperatureSampler : Type := { temperature : Q }.
Record TopKSampler : Type := { k : Z }.
Record TopPSampler : Type := { p : Q }.

Definition TemperatureSampler_init (temperature : Q) : result TemperatureSampler :=
  Ok {| temperature := temperature |}.

Definition TopKSampler_init (k : Z) : result TopKSampler :=
  Ok {| k := k |}.

Definition TopPSampler_init (p : Q) : result TopPSampler :=
  Ok {| p := p |}.

Section Samplers.

(** The exponential used by [F.softmax]. *)
Variable exp : Q -> Q.

(** [tie i j = true]: among equal values torch places the entry of index
    [i] before the entry of index [j]. *)
Variable tie : nat -> nat -> bool.

(** [F.softmax(x, dim=-1)], computed exactly: the row maximum is
    subtracted before exponentiating. *)
Definition softmax (x : list Q) : list Q :=
  match x with
  | [] => []
  | x0 :: t =>
      let m := fold_left Qmaxb t x0 in
      let e := map (fun v => exp (v - m)) x in
      let s := tsum e in
      map (fun v => v / s) e
  end.

(** [torch.sort(x, descending=True)]: an insertion sort on the entries
    paired with their positions; it returns the values and the indices. *)
Definition enumerate (x : list Q) : list (Q * nat) :=
  combine x (seq 0 (length x)).

Definition before (a b : Q * nat) : bool :=
  Qltb (fst b) (fst a) || (Qeq_bool (fst a) (fst b) && tie (snd a) (snd b)).

Fixpoint insert_desc (a : Q * nat) (l : list (Q * nat)) : list (Q * nat) :=
  match l with
  | [] => [a]
  | b :: t => if before a b then a :: b :: t else b :: insert_desc a t
  end.

Definition sort_pairs (x : list Q) : list (Q * nat) :=
  fold_right insert_desc [] (enumerate x).

Definition sort_desc (x : list Q) : list Q * list nat :=
  (map fst (sort_pairs x), map snd (sort_pairs x)).

(** [torch.topk(x, k)]: the [k] first entries of the descending order;
    torch refuses [k] outside [0 .. len(x)]. *)
Definition topk (x : list Q) (k : Z) : result (list Q * list nat) :=
  if ((k <? 0) || (Z.of_nat (length x) <? k))%Z then Raise RuntimeError_topk_range
  else Ok (firstn (Z.to_nat k) (fst (sort_desc x)),
           firstn (Z.to_nat k) (snd (sort_desc x))).

(** *** TemperatureSampler.__call__ *)

(** The distribution drawn from when the temperature is not zero, computed
    exactly: the division by the temperature does not overflow here. *)
Definition Temperature_probs (self : TemperatureSampler) (logits : list Q) : list Q :=
  let scaled_logits := map (fun v => v / temperature self) logits in
  softmax scaled_logits.

Definition TemperatureSampler_call
    (self : TemperatureSampler) (logits : list Q) (draw : nat) : result nat :=
  if Qeq_bool (temperature self) 0 then
    (* Greedy sampling *)
    argmax logits
  else
    let probs := Temperature_probs self logits in
    multinomial probs draw.

(** *** TopKSampler.__call__ *)
Definition TopKSampler_call
    (self : TopKSampler) (logits : list Q) (draw : nat) : result nat :=
  r <- topk logits (k self) ;;
  let '(topk_logits, topk_indices) := r in
  let topk_probs := softmax topk_logits in
  next_token_idx <- multinomial topk_probs draw ;;
  tensor_index topk_indices next_token_idx.

(** *** TopPSampler.__call__ *)

(** The statements of [__call__] before the draw: they yield
    [filtered_probs], masked and normalised, and [sorted_indices]. *)
Definition TopP_nucleus (self : TopPSampler) (logits : list Q) : list Q * list nat :=
  let probs := softmax logits in
  let '(sorted_probs, sorted_indices) := sort_desc probs in
  let cumulative_probs := cumsum sorted_probs in
  let cutoff_index := searchsorted cumulative_probs (p self) in
  let filtered_probs := zero_from (cutoff_index + 1) sorted_probs in
  let filtered_probs := map (fun v => v / tsum filtered_probs) filtered_probs in
  (filtered_probs, sorted_indices).

Definition TopPSampler_call
    (self : TopPSampler) (logits : list Q) (draw : nat) : result nat :=
  let '(filtered_probs, sorted_indices) := TopP_nucleus self logits in
  next_token_index <- multinomial filtered_probs draw ;;
  tensor_index sorted_indices next_token_index.

(** The local variables [sorted_probs], [sorted_indices], [cutoff_index]
    and [topk_indices] of the calls, named to state properties on them. *)
Definition TopP_sorted_probs (logits : list Q) : list Q :=
  fst (sort_desc (softmax logits)).

Definition TopP_sorted_indices (logits : list Q) : list nat :=
  snd (sort_desc (softmax logits)).

Definition TopP_cutoff_index (self : TopPSampler) (logits : list Q) : nat :=
  searchsorted (cumsum (TopP_sorted_probs logits)) (p self).

Definition TopP_filtered_probs (self : TopPSampler) (logits : list Q) : list Q :=
  fst (TopP_nucleus self logits).

End Samplers.

(** A positive rational stand-in for the exponential, used to run the
    samplers on concrete inputs: [1 + x] right of zero, [1 / (1 - x)] left
    of it. *)
Definition exp_approx (x : Q) : Q :=
  if Qle_bool 0 x then 1 + x else 1 / (1 - x).

(** The stable order: the lower index first. *)
Definition tie_low (i j : nat) : bool := (i <=? j)%nat.


(** ** TopPSampler over the kernels of torch

    torch computes [F.softmax], [torch.cumsum], [tensor.sum()] and the
    division of a tensor by a scalar in the float format of the tensor, and
    rounds every result; the order of the additions inside a kernel is its
    own.  Here these kernels are parameters, and so is the conversion of the
    Python float [self.p] to the number [torch.searchsorted] compares with.
    The definitions above are the instance that computes exactly. *)

Section Kernels.

Variable softmax_k : list Q -> list Q.
Variable cumsum_k : list Q -> list Q.
Variable sum_k : list Q -> Q.
Variable div_k : Q -> Q -> Q.
Variable scalar_k : Q -> Q.
Variable tie : nat -> nat -> bool.

Definition TopP_nucleus_k (self : TopPSampler) (logits : list Q) : list Q * list nat :=
  let probs := softmax_k logits in
  let '(sorted_probs, sorted_indices) := sort_desc tie probs in
  let cumulative_probs := cumsum_k sorted_probs in
  let cutoff_index := searchsorted cumulative_probs (scalar_k (p self)) in
  let filtered_probs := zero_from (cutoff_index + 1) sorted_probs in
  let filtered_probs := map (fun v => div_k v (sum_k filtered_probs)) filtered_probs in
  (filtered_probs, sorted_indices).

Definition TopPSampler_call_k
    (self : TopPSampler) (logits : list Q) (draw : nat) : result nat :=
  let '(filtered_probs, sorted_indices) := TopP_nucleus_k self logits in
  next_token_index <- multinomial filtered_probs draw ;;
  tensor_index sorted_indices next_token_index.

(** The local variables of the call, named to state properties on them;
    [TopP_masked_probs_k] is [filtered_probs] after the slice assignment and
    before the division. *)
Definition TopP_sorted_probs_k (logits : list Q) : list Q :=
  fst (sort_desc tie (softmax_k logits)).

Definition TopP_sorted_indices_k (logits : list Q) : list nat :=
  snd (sort_desc tie (softmax_k logits)).

Definition TopP_cumulative_probs_k (logits : list Q) : list Q :=
  cumsum_k (TopP_sorted_probs_k logits).

Definition TopP_cutoff_index_k (self : TopPSampler) (logits : list Q) : nat :=
  searchsorted (TopP_cumulative_probs_k logits) (scalar_k (p self)).

Definition TopP_masked_probs_k (self : TopPSampler) (logits : list Q) : list Q :=
  zero_from (TopP_cutoff_index_k self logits + 1) (TopP_sorted_probs_k logits).

Definition TopP_filtered_probs_k (self : TopPSampler) (logits : list Q) : list Q :=
  fst (TopP_nucleus_k self logits).

End Kernels.

(** Weights as [filtered_probs] holds them before the division: at most
    [2^24] of them (torch.multinomial takes no more categories), each in
    [[0, 1]], one at least positive. *)
Definition weights (z : list Q) : Prop :=
  (Z.of_nat (length z) <= 2 ^ 24)%Z /\
  (forall v, In v z -> 0 <= v <= 1) /\
  (exists v, In v z /\ 0 < v).

(** What the properties below use of the kernels.  Each line holds of the
    float kernels of torch on tensors of finite numbers, however they
    round: a softmax is a vector of numbers of [[0, 1]], the entry of the
    largest logit positive; a running sum of non-negative terms is
    ascending, as [torch.searchsorted] expects of its first argument;
    dividing weights by their sum keeps zero at zero and the other weights
    non-negative, and the largest weight, divided by a sum of at most [2^24]
    weights none of which exceeds it, does not underflow. *)
Record kernels_ok
    (softmax_k cumsum_k : list Q -> list Q) (sum_k : list Q -> Q)
    (div_k : Q -> Q -> Q) : Prop := {
  softmax_k_length : forall x, length (softmax_k x) = length x;
  softmax_k_range : forall x v, In v (softmax_k x) -> 0 <= v <= 1;
  softmax_k_positive : forall x, x <> [] -> exists v, In v (softmax_k x) /\ 0 < v;
  cumsum_k_length : forall y, length (cumsum_k y) = length y;
  cumsum_k_ascending :
    forall y, (forall v, In v y -> 0 <= v) -> StronglySorted Qle (cumsum_k y);
  normalise_zero : forall z, weights z -> div_k 0 (sum_k z) == 0;
  normalise_nonneg : forall z a, weights z -> In a z -> 0 <= div_k a (sum_k z);
  normalise_largest :
    forall z a, weights z -> In a z -> 0 < a -> (forall v, In v z -> v <= a) ->
                0 < div_k a (sum_k z)
}.

(** ** The kernels in binary32

    Rounding to nearest, ties to even, on a significand of 24 bits (53 bits
    for a double).  The range of the exponent is not modelled, so nothing
    overflows and only the exponential underflows. *)

(** [n / d] rounded to the nearest integer, ties to even ([0 <= n], [0 < d]). *)
Definition round_half_even (n d : Z) : Z :=
  let q := (n / d)%Z in
  match (2 * (n mod d) ?= d)%Z with
  | Lt => q
  | Gt => (q + 1)%Z
  | Eq => if Z.even q then q else (q + 1)%Z
  end.

(** The fraction [n / d] times [2^k], as a numerator and a denominator. *)
Definition scale2 (k n d : Z) : Z * Z :=
  (n * 2 ^ Z.max k 0, d * 2 ^ Z.max (- k) 0)%Z.

(** The exponent [e] with [2^e <= n / d < 2^(e+1)] ([0 < n], [0 < d]). *)
Definition binade (n d : Z) : Z :=
  let e0 := (Z.log2 n - Z.log2 d)%Z in
  let '(N, D) := scale2 (- e0) n d in
  if (D <=? N)%Z then e0 else (e0 - 1)%Z.

(** [n / d] rounded to [prec] significant bits ([0 < n], [0 < d]). *)
Definition round_pos (prec n d : Z) : Q :=
  let k := (prec - 1 - binade n d)%Z in
  let '(N, D) := scale2 k n d in
  inject_Z (round_half_even N D) * Qpower 2 (- k).

(** [q] rounded to a float of [prec] significant bits. *)
Definition fl (prec : Z) (q : Q) : Q :=
  match Qnum q with
  | Z0 => 0
  | Zpos n => round_pos prec (Zpos n) (Zpos (Qden q))
  | Zneg n => - round_pos prec (Zpos n) (Zpos (Qden q))
  end.

Definition fl32 : Q -> Q := fl 24.
Definition fl64 : Q -> Q := fl 53.

(** A stand-in for the exponential in binary32, whose last bit torch does
    not fix: the power of two [2^floor(3x/2)], equal to 1 at 0 as every
    exponential is, and flushed to zero below the smallest positive
    float. *)
Definition exp_b (x : Q) : Q :=
  let e := Qfloor (x * (3 # 2)) in
  if (e <? -149)%Z then 0 else Qpower 2 e.

(** [tensor.sum()]: the terms added one after the other, each partial sum
    rounded. *)
Definition sum_b (z : list Q) : Q :=
  fold_left (fun acc v => fl32 (acc + v)) z 0.

(** [torch.cumsum] on a float32 tensor of the CPU: the running sum is kept
    in double precision and each output is rounded to float32. *)
Fixpoint cumsum_from_b (acc : Q) (y : list Q) : list Q :=
  match y with
  | [] => []
  | v :: t => fl32 (fl64 (acc + v)) :: cumsum_from_b (fl64 (acc + v)) t
  end.

Definition cumsum_b (y : list Q) : list Q := cumsum_from_b 0 y.

(** The division of two floats. *)
Definition div_b (a s : Q) : Q := fl32 (a / s).

(** [F.softmax] with every operation rounded. *)
Definition softmax_b (x : list Q) : list Q :=
  match x with
  | [] => []
  | x0 :: t =>
      let m := fold_left Qmaxb t x0 in
      let e := map (fun v => exp_b (fl32 (v - m))) x in
      let s := sum_b e in
      map (fun v => div_b v s) e
  end.

(** ** Notions used to state the properties of the samplers *)




(** A probability distribution: no negative entry, total mass one. *)
Definition distribution (d : list Q) : Prop :=
  (forall v, In v d -> 0 <= v) /\ tsum d == 1.


(** [j] comes before [i] when the logits are ranked by descending value,
    the lower index first among equals. *)
Definition beats (x : list Q) (j i : nat) : bool :=
  Qltb (nth i x 0) (nth j x 0) ||
  (Qeq_bool (nth j x 0) (nth i x 0) && (j <? i)%nat).

(** The [n] indices of the largest entries, ties broken by lowest index:
    the positions that fewer than [n] positions come before. *)
Definition lowest_index_topk (x : list Q) (n : nat) : list nat :=
  filter (fun i => (length (filter (fun j => beats x j i) (seq 0 (length x))) <? n)%nat)
         (seq 0 (length x)).

(** The same order as a relation, an index being ranked before itself. *)
Definition ranked_before (x : list Q) (j i : nat) : Prop :=
  nth i x 0 < nth j x 0 \/ (nth j x 0 == nth i x 0 /\ (j <= i)%nat).

(** Pairs of a value and its position, by descending value. *)
Definition desc_pairs : list (Q * nat) -> Prop :=
  StronglySorted (fun a b => fst b <= fst a).

(** ** The cells under "# Test"

    Each cell builds a sampler, a vocabulary and a row of 27 random logits,
    calls the sampler and looks the returned index up in the vocabulary.
    [vocabulary] and [logits] are parameters: [list(set(...))] lists the
    characters of the string once each in an order Python does not fix, and
    [torch.randn] gives any 27 numbers. *)

(** [l[i]] on a Python list, for an index that is not negative. *)
Definition list_index {A : Type} (l : list A) (i : nat) : result A :=
  match nth_error l i with
  | Some v => Ok v
  | None => Raise IndexError_out_of_bounds
  end.

Definition alphabet : list ascii :=
  ["a"; "b"; "c"; "d"; "e"; "f"; "g"; "h"; "i"; "j"; "k"; "l"; "m"; "n";
   "o"; "p"; "q"; "r"; "s"; "t"; "u"; "v"; "w"; "x"; "y"; "z"; "."]%char.

Definition GreedySampler_test
    (vocabulary : list ascii) (logits : list Q) : result ascii :=
  next_token_id <- GreedySampler_call logits ;;
  list_index vocabulary next_token_id.

Definition TemperatureSampler_test (exp : Q -> Q)
    (vocabulary : list ascii) (logits : list Q) (draw : nat) : result ascii :=
  sampler <- TemperatureSampler_init 5 ;;
  next_token_id <- TemperatureSampler_call exp sampler logits draw ;;
  list_index vocabulary next_token_id.

Definition TopKSampler_test (exp : Q -> Q) (tie : nat -> nat -> bool)
    (vocabulary : list ascii) (logits : list Q) (draw : nat) : result ascii :=
  sampler <- TopKSampler_init 3 ;;
  next_token_id <- TopKSampler_call exp tie sampler logits draw ;;
  list_index vocabulary next_token_id.

Definition TopPSampler_test (exp : Q -> Q) (tie : nat -> nat -> bool)
    (vocabulary : list ascii) (logits : list Q) (draw : nat) : result ascii :=
  sampler <- TopPSampler_init (7 # 10) ;;
  next_token_id <- TopPSampler_call exp tie sampler logits draw ;;
  list_index vocabulary next_token_id.

(** ** Facts on the boolean comparisons *)

Lemma Qltb_true (x y : Q) : Qltb x y = true <-> x < y.
Proof.
  unfold Qltb. rewrite negb_true_iff. split; intro H.
  - destruct (Qlt_le_dec x y) as [L | L]; [exact L |].
    apply Qle_bool_iff in L. congruence.
  - destruct (Qle_bool y x) eqn:E; [| reflexivity].
    apply Qle_bool_iff in E. exfalso. lra.
Qed.

Lemma Qltb_false (x y : Q) : Qltb x y = false <-> y <= x.
Proof.
  unfold Qltb. rewrite negb_false_iff. apply Qle_bool_iff.
Qed.

(** ** torch.argmax returns the first maximal entry *)

Lemma argmax_from_spec (l pre : list Q) (best : Q) (bi : nat) :
  (bi < length pre)%nat ->
  nth bi pre 0 = best ->
  (forall j, (j < length pre)%nat -> nth j pre 0 <= best) ->
  (forall j, (j < bi)%nat -> nth j pre 0 < best) ->
  let r := argmax_from best bi (length pre) l in
  (r < length (pre ++ l))%nat /\
  (forall j, (j < length (pre ++ l))%nat -> nth j (pre ++ l) 0 <= nth r (pre ++ l) 0) /\
  (forall j, (j < r)%nat -> nth j (pre ++ l) 0 < nth r (pre ++ l) 0).
Proof.
  revert pre best bi. induction l as [| x t IH]; intros pre best bi Hbi Hbest Hmax Hfirst.
  - simpl. rewrite app_nil_r. rewrite Hbest. auto.
  - simpl. unfold tgt, TorchOrd_Q.
    assert (Hlen : length (pre ++ [x]) = S (length pre))
      by (rewrite length_app; simpl; lia).
    replace (pre ++ x :: t) with ((pre ++ [x]) ++ t)
      by (rewrite <- app_assoc; reflexivity).
    destruct (Qltb best x) eqn:E.
    + apply Qltb_true in E. rewrite <- Hlen.
      apply (IH (pre ++ [x]) x (length pre)).
      * lia.
      * rewrite app_nth2 by lia. rewrite Nat.sub_diag. reflexivity.
      * intros j Hj. rewrite Hlen in Hj.
        destruct (Nat.eq_dec j (length pre)) as [-> | Hne].
        -- rewrite app_nth2 by lia. rewrite Nat.sub_diag. simpl. lra.
        -- rewrite app_nth1 by lia. specialize (Hmax j ltac:(lia)). lra.
      * intros j Hj. rewrite app_nth1 by lia. specialize (Hmax j Hj). lra.
    + apply Qltb_false in E. rewrite <- Hlen.
      apply (IH (pre ++ [x]) best bi).
      * lia.
      * rewrite app_nth1 by lia. exact Hbest.
      * intros j Hj. rewrite Hlen in Hj.
        destruct (Nat.eq_dec j (length pre)) as [-> | Hne].
        -- rewrite app_nth2 by lia. rewrite Nat.sub_diag. simpl. exact E.
        -- rewrite app_nth1 by lia. apply Hmax. lia.
      * intros j Hj. rewrite app_nth1 by lia. apply Hfirst. exact Hj.
Qed.

(** C4. On a non-empty logits vector [GreedySampler] returns an index [i]
    of the vocabulary whose logit is maximal and such that every lower index
    holds a strictly smaller logit: the lowest index among the maximal ones.
    The call takes no random draw, so it is a function of the logits alone. *)
Theorem GreedySampler_lowest_argmax (logits : list Q) :
  logits <> [] ->
  exists i,
    GreedySampler_call logits = Ok i /\
    (i < length logits)%nat /\
    (forall j, (j < length logits)%nat -> nth j logits 0 <= nth i logits 0) /\
    (forall j, (j < i)%nat -> nth j logits 0 < nth i logits 0).
Proof.
  destruct logits as [| x t]; [congruence | intros _].
  exists (argmax_from x 0%nat 1%nat t). split; [reflexivity |].
  apply (argmax_from_spec t [x] x 0%nat); simpl.
  - lia.
  - reflexivity.
  - intros j Hj. assert (j = 0%nat) by lia. subst. lra.
  - intros j Hj. lia.
Qed.

Lemma GreedySampler_lowest_argmax_witness :
  exists i,
    GreedySampler_call [1; 3; 2; 3] = Ok i /\
    (i < length [1; 3; 2; 3])%nat /\
    (forall j, (j < length [1; 3; 2; 3])%nat ->
               nth j [1; 3; 2; 3] 0 <= nth i [1; 3; 2; 3] 0) /\
    (forall j, (j < i)%nat -> nth j [1; 3; 2; 3] 0 < nth i [1; 3; 2; 3] 0).
Proof.
  apply (GreedySampler_lowest_argmax [1; 3; 2; 3]). discriminate.
Defined.

(** C3. With a temperature equal to zero [TemperatureSampler] takes its
    first branch and returns what [GreedySampler] returns on the same logits,
    whatever the random draw; the division by the temperature is not
    evaluated on that branch. *)
Theorem TemperatureSampler_zero_is_greedy
    (exp : Q -> Q) (self : TemperatureSampler) (logits : list Q) (draw : nat) :
  temperature self == 0 ->
  TemperatureSampler_call exp self logits draw = GreedySampler_call logits.
Proof.
  intro H. unfold TemperatureSampler_call.
  apply Qeq_bool_iff in H. rewrite H. reflexivity.
Qed.

Lemma TemperatureSampler_zero_is_greedy_witness :
  TemperatureSampler_call exp_approx {| temperature := 0 |} [1; 3; 2; 3] 7
  = GreedySampler_call [1; 3; 2; 3].
Proof.
  apply (TemperatureSampler_zero_is_greedy exp_approx {| temperature := 0 |}).
  simpl. reflexivity.
Defined.

(** ** Sums *)

Lemma tsum_app (x y : list Q) : tsum (x ++ y) == tsum x + tsum y.
Proof.
  induction x as [| v t IH]; simpl.
  - ring.
  - rewrite IH. ring.
Qed.

Lemma tsum_repeat_zero (n : nat) : tsum (repeat 0 n) == 0.
Proof.
  induction n as [| n IH]; simpl.
  - reflexivity.
  - rewrite IH. ring.
Qed.

Lemma tsum_nonneg (x : list Q) : (forall v, In v x -> 0 <= v) -> 0 <= tsum x.
Proof.
  induction x as [| v t IH]; simpl; intro H.
  - lra.
  - assert (0 <= v) by (apply H; auto).
    assert (0 <= tsum t) by (apply IH; intros; apply H; auto).
    lra.
Qed.

Lemma tsum_pos (x : list Q) :
  x <> [] -> (forall v, In v x -> 0 < v) -> 0 < tsum x.
Proof.
  destruct x as [| v t]; [congruence | intros _ H]. simpl.
  assert (0 < v) by (apply H; simpl; auto).
  assert (0 <= tsum t).
  { apply tsum_nonneg. intros w Hw. apply Qlt_le_weak, H. simpl; auto. }
  lra.
Qed.

Lemma tsum_map_div (x : list Q) (s : Q) :
  tsum (map (fun v => v / s) x) == tsum x / s.
Proof.
  induction x as [| v t IH]; simpl.
  - unfold Qdiv. ring.
  - rewrite IH. unfold Qdiv. ring.
Qed.

Lemma tsum_perm (x y : list Q) : Permutation x y -> tsum x == tsum y.
Proof.
  induction 1; simpl.
  - reflexivity.
  - rewrite IHPermutation. reflexivity.
  - ring.
  - rewrite IHPermutation1. exact IHPermutation2.
Qed.

Lemma Qdiv_pos (a s : Q) : 0 < a -> 0 < s -> 0 < a / s.
Proof.
  intros Ha Hs. apply Qlt_shift_div_l; [exact Hs |]. lra.
Qed.

Lemma Qdiv_same (s : Q) : 0 < s -> s / s == 1.
Proof.
  intro Hs. unfold Qdiv. apply Qmult_inv_r. lra.
Qed.

Section SamplerProofs.

Variable exp : Q -> Q.
Hypothesis exp_pos : forall x, 0 < exp x.
Variable tie : nat -> nat -> bool.

(** ** F.softmax yields a positive distribution *)

Lemma softmax_length (x : list Q) : length (softmax exp x) = length x.
Proof.
  destruct x as [| x0 t]; [reflexivity |].
  unfold softmax. rewrite !length_map. reflexivity.
Qed.

Lemma exps_pos (m : Q) (x : list Q) (w : Q) :
  In w (map (fun v => exp (v - m)) x) -> 0 < w.
Proof.
  intro H. apply in_map_iff in H. destruct H as [v [<- _]]. apply exp_pos.
Qed.

Lemma softmax_In_pos (x : list Q) (v : Q) : In v (softmax exp x) -> 0 < v.
Proof.
  destruct x as [| x0 t]; [intros [] |].
  unfold softmax.
  set (m := fold_left Qmaxb t x0).
  set (e := map (fun v => exp (v - m)) (x0 :: t)).
  intro H. apply in_map_iff in H. destruct H as [w [<- Hw]].
  apply Qdiv_pos.
  - apply (exps_pos m (x0 :: t)). exact Hw.
  - apply tsum_pos; [discriminate |]. apply (exps_pos m (x0 :: t)).
Qed.

Lemma softmax_sum_one (x : list Q) : x <> [] -> tsum (softmax exp x) == 1.
Proof.
  destruct x as [| x0 t]; [congruence | intros _].
  unfold softmax.
  set (m := fold_left Qmaxb t x0).
  set (e := map (fun v => exp (v - m)) (x0 :: t)).
  rewrite tsum_map_div. apply Qdiv_same.
  apply tsum_pos; [discriminate |]. apply (exps_pos m (x0 :: t)).
Qed.

(** ** torch.sort: a descending permutation of the positions *)

Lemma insert_desc_perm (a : Q * nat) (l : list (Q * nat)) :
  Permutation (insert_desc tie a l) (a :: l).
Proof.
  induction l as [| b t IH]; simpl.
  - apply Permutation_refl.
  - destruct (before tie a b).
    + apply Permutation_refl.
    + apply perm_trans with (b :: a :: t).
      * apply perm_skip. exact IH.
      * apply perm_swap.
Qed.

Lemma sort_pairs_perm (x : list Q) :
  Permutation (sort_pairs tie x) (enumerate x).
Proof.
  unfold sort_pairs. induction (enumerate x) as [| a l IH]; simpl.
  - apply Permutation_refl.
  - apply perm_trans with (a :: fold_right (insert_desc tie) [] l).
    + apply insert_desc_perm.
    + apply perm_skip. exact IH.
Qed.

Lemma before_true (a b : Q * nat) : before tie a b = true -> fst b <= fst a.
Proof.
  unfold before. intro H. apply orb_true_iff in H. destruct H as [H | H].
  - apply Qltb_true in H. lra.
  - apply andb_true_iff in H. destruct H as [H _].
    apply Qeq_bool_iff in H. lra.
Qed.

Lemma before_false (a b : Q * nat) : before tie a b = false -> fst a <= fst b.
Proof.
  unfold before. intro H. apply orb_false_iff in H. destruct H as [H _].
  apply Qltb_false in H. exact H.
Qed.

Lemma insert_desc_sorted (a : Q * nat) (l : list (Q * nat)) :
  desc_pairs l -> desc_pairs (insert_desc tie a l).
Proof.
  unfold desc_pairs. induction l as [| b t IH]; simpl; intro Hs.
  - constructor; constructor.
  - inversion Hs as [| b' t' Ht Hb]; subst.
    destruct (before tie a b) eqn:E.
    + apply before_true in E. constructor; [exact Hs |].
      constructor; [exact E |].
      rewrite Forall_forall in *. intros c Hc. specialize (Hb c Hc). lra.
    + apply before_false in E. constructor; [apply IH; exact Ht |].
      rewrite Forall_forall in *. intros c Hc.
      apply (Permutation_in _ (insert_desc_perm a t)) in Hc.
      destruct Hc as [<- | Hc]; [exact E | apply Hb; exact Hc].
Qed.

Lemma sort_pairs_sorted (x : list Q) : desc_pairs (sort_pairs tie x).
Proof.
  unfold sort_pairs. induction (enumerate x) as [| a l IH]; simpl.
  - constructor.
  - apply insert_desc_sorted. exact IH.
Qed.

Lemma combine_seq_In (x : list Q) (s : nat) (v : Q) (i : nat) :
  In (v, i) (combine x (seq s (length x))) ->
  (s <= i < s + length x)%nat /\ nth (i - s) x 0 = v.
Proof.
  revert s. induction x as [| w t IH]; intros s H; simpl in H.
  - destruct H.
  - destruct H as [H | H].
    + inversion H; subst. rewrite Nat.sub_diag. simpl. split; [lia | reflexivity].
    + apply IH in H. destruct H as [Hr Hn]. simpl length. split; [lia |].
      replace (i - s)%nat with (S (i - S s)) by lia. exact Hn.
Qed.

Lemma enumerate_In (x : list Q) (v : Q) (i : nat) :
  In (v, i) (enumerate x) -> (i < length x)%nat /\ nth i x 0 = v.
Proof.
  intro H. apply combine_seq_In in H. rewrite Nat.sub_0_r in H.
  destruct H as [Hr Hn]. split; [lia | exact Hn].
Qed.

Lemma combine_seq_fst (x : list Q) (s : nat) :
  map fst (combine x (seq s (length x))) = x.
Proof.
  revert s. induction x as [| w t IH]; intro s; simpl.
  - reflexivity.
  - rewrite IH. reflexivity.
Qed.

Lemma combine_seq_snd (x : list Q) (s : nat) :
  map snd (combine x (seq s (length x))) = seq s (length x).
Proof.
  revert s. induction x as [| w t IH]; intro s; simpl.
  - reflexivity.
  - rewrite IH. reflexivity.
Qed.

Lemma sort_pairs_In (x : list Q) (v : Q) (i : nat) :
  In (v, i) (sort_pairs tie x) -> (i < length x)%nat /\ nth i x 0 = v.
Proof.
  intro H. apply enumerate_In.
  apply (Permutation_in _ (sort_pairs_perm x)). exact H.
Qed.

Lemma sort_desc_length (x : list Q) :
  length (fst (sort_desc tie x)) = length x /\
  length (snd (sort_desc tie x)) = length x.
Proof.
  unfold sort_desc. simpl. rewrite !length_map.
  rewrite (Permutation_length (sort_pairs_perm x)).
  unfold enumerate. rewrite length_combine, length_seq. lia.
Qed.

Lemma sort_desc_indices_perm (x : list Q) :
  Permutation (snd (sort_desc tie x)) (seq 0 (length x)).
Proof.
  unfold sort_desc. simpl.
  rewrite <- (combine_seq_snd x 0). apply Permutation_map. apply sort_pairs_perm.
Qed.

Lemma sort_desc_values_perm (x : list Q) :
  Permutation (fst (sort_desc tie x)) x.
Proof.
  unfold sort_desc. simpl.
  rewrite <- (combine_seq_fst x 0) at 2. apply Permutation_map. apply sort_pairs_perm.
Qed.


Lemma sort_desc_values_sorted (x : list Q) :
  StronglySorted (fun a b => b <= a) (fst (sort_desc tie x)).
Proof.
  unfold sort_desc. simpl.
  pose proof (sort_pairs_sorted x) as H. unfold desc_pairs in H.
  induction H as [| a l Hl IH Ha]; simpl.
  - constructor.
  - constructor; [exact IH |].
    rewrite Forall_forall in *. intros w Hw.
    apply in_map_iff in Hw. destruct Hw as [b [<- Hb]]. apply Ha. exact Hb.
Qed.


(** ** torch.cumsum followed by torch.searchsorted *)

Lemma searchsorted_cumsum_from (x : list Q) (acc v : Q) :
  let n := searchsorted (cumsum_from acc x) v in
  (n <= length x)%nat /\
  (forall m, (m < n)%nat -> acc + tsum (firstn (S m) x) < v) /\
  ((n < length x)%nat -> v <= acc + tsum (firstn (S n) x)).
Proof.
  revert acc. induction x as [| w t IH]; intro acc; simpl.
  - repeat split; intros; lia.
  - destruct (Qle_bool v (acc + w)) eqn:E.
    + apply Qle_bool_iff in E. repeat split.
      * lia.
      * intros m Hm. lia.
      * intros _. rewrite firstn_O. simpl. lra.
    + assert (L : acc + w < v).
      { apply Qltb_true. unfold Qltb. rewrite E. reflexivity. }
      destruct (IH (acc + w)) as [H1 [H2 H3]].
      repeat split.
      * lia.
      * intros m Hm. destruct m as [| m].
        -- rewrite firstn_O. simpl. lra.
        -- specialize (H2 m ltac:(lia)).
           change (tsum (w :: firstn (S m) t)) with (w + tsum (firstn (S m) t)).
           lra.
      * intros Hn. specialize (H3 ltac:(lia)).
        change (tsum (w :: firstn (S (searchsorted (cumsum_from (acc + w) t) v)) t))
          with (w + tsum (firstn (S (searchsorted (cumsum_from (acc + w) t) v)) t)).
        lra.
Qed.

Lemma searchsorted_cumsum (x : list Q) (v : Q) :
  let n := searchsorted (cumsum x) v in
  (n <= length x)%nat /\
  (forall m, (m < n)%nat -> tsum (firstn (S m) x) < v) /\
  ((n < length x)%nat -> v <= tsum (firstn (S n) x)).
Proof.
  destruct (searchsorted_cumsum_from x 0 v) as [H1 [H2 H3]].
  unfold cumsum. repeat split.
  - exact H1.
  - intros m Hm. specialize (H2 m Hm). lra.
  - intros Hn. specialize (H3 Hn). lra.
Qed.

(** The contract torch documents for [searchsorted]: every entry before
    the position returned is below [v], and the entry at that position, when
    there is one, is not.  On an ascending sequence this fixes the position,
    so the scan and torch's bisection agree. *)
Lemma searchsorted_contract (s : list Q) (v : Q) :
  let n := searchsorted s v in
  (n <= length s)%nat /\
  (forall m, (m < n)%nat -> nth m s 0 < v) /\
  ((n < length s)%nat -> v <= nth n s 0).
Proof.
  induction s as [| c t IH]; simpl.
  - repeat split; intros; lia.
  - destruct (Qle_bool v c) eqn:E.
    + apply Qle_bool_iff in E. repeat split; intros; [lia | lia | exact E].
    + assert (L : c < v) by (apply Qltb_true; unfold Qltb; rewrite E; reflexivity).
      destruct IH as [H1 [H2 H3]]. repeat split.
      * lia.
      * intros m Hm. destruct m as [| m]; [exact L | apply H2; lia].
      * intro Hn. apply H3. lia.
Qed.

Lemma cumsum_from_ascending (acc : Q) (x : list Q) :
  (forall v, In v x -> 0 <= v) ->
  StronglySorted Qle (cumsum_from acc x) /\
  (forall c, In c (cumsum_from acc x) -> acc <= c).
Proof.
  revert acc. induction x as [| w t IH]; intros acc Hx; simpl.
  - split; [constructor | intros c []].
  - assert (Hw : 0 <= w) by (apply Hx; simpl; auto).
    destruct (IH (acc + w)) as [Hs Hb]; [intros; apply Hx; simpl; auto |].
    split.
    + constructor; [exact Hs |]. apply Forall_forall. exact Hb.
    + intros c [<- | Hc]; [lra |]. specialize (Hb c Hc). lra.
Qed.

(** ** The slice assignment *)

Lemma zero_from_length (n : nat) (x : list Q) : length (zero_from n x) = length x.
Proof.
  unfold zero_from. rewrite length_app, length_firstn, repeat_length. lia.
Qed.

Lemma zero_from_sum (n : nat) (x : list Q) :
  tsum (zero_from n x) == tsum (firstn n x).
Proof.
  unfold zero_from. rewrite tsum_app, tsum_repeat_zero. ring.
Qed.

Lemma zero_from_nth_kept (n : nat) (x : list Q) (i : nat) :
  (i < n)%nat -> nth i (zero_from n x) 0 = nth i x 0.
Proof.
  intro H. unfold zero_from.
  destruct (Nat.lt_ge_cases i (length x)) as [L | L].
  - rewrite app_nth1 by (rewrite length_firstn; lia).
    rewrite nth_firstn. apply Nat.ltb_lt in H. rewrite H. reflexivity.
  - rewrite (nth_overflow x) by lia.
    apply nth_overflow. rewrite length_app, length_firstn, repeat_length. lia.
Qed.

Lemma zero_from_nth_masked (n : nat) (x : list Q) (i : nat) :
  (n <= i)%nat -> nth i (zero_from n x) 0 = 0.
Proof.
  intro H. unfold zero_from.
  destruct (Nat.lt_ge_cases i (length x)) as [L | L].
  - rewrite app_nth2 by (rewrite length_firstn; lia).
    apply nth_repeat.
  - apply nth_overflow. rewrite length_app, length_firstn, repeat_length. lia.
Qed.

(** ** torch.multinomial draws a category of positive weight *)

Lemma tsum_ge_nth (x : list Q) (i : nat) :
  (forall v, In v x -> 0 <= v) -> (i < length x)%nat -> nth i x 0 <= tsum x.
Proof.
  revert i. induction x as [| w t IH]; intros i Hx Hi; simpl in Hi.
  - lia.
  - assert (Hw : 0 <= w) by (apply Hx; simpl; auto).
    assert (Ht : forall v, In v t -> 0 <= v) by (intros; apply Hx; simpl; auto).
    destruct i as [| i]; simpl.
    + pose proof (tsum_nonneg t Ht). lra.
    + specialize (IH i Ht ltac:(lia)). lra.
Qed.

Lemma positive_entry (x : list Q) :
  (forall v, In v x -> 0 <= v) -> 0 < tsum x ->
  exists i, (i < length x)%nat /\ 0 < nth i x 0.
Proof.
  induction x as [| w t IH]; simpl; intros Hx Hs.
  - lra.
  - destruct (Qlt_le_dec 0 w) as [L | L].
    + exists 0%nat. split; [lia | exact L].
    + assert (Hw : 0 <= w) by (apply Hx; auto).
      destruct IH as [i [Hi Hp]].
      * intros; apply Hx; auto.
      * lra.
      * exists (S i). split; [lia | exact Hp].
Qed.

Lemma support_In (probs : list Q) (i : nat) :
  In i (support probs) <-> (i < length probs)%nat /\ 0 < nth i probs 0.
Proof.
  unfold support. rewrite filter_In, in_seq, Qltb_true. intuition lia.
Qed.

Lemma no_negative_entry (probs : list Q) :
  existsb (fun v => Qltb v 0) probs = false <-> (forall v, In v probs -> 0 <= v).
Proof.
  split.
  - intros H v Hv. apply Qltb_false.
    destruct (Qltb v 0) eqn:E; [| reflexivity].
    assert (X : existsb (fun v => Qltb v 0) probs = true)
      by (apply existsb_exists; exists v; auto).
    congruence.
  - intro H. destruct (existsb (fun v => Qltb v 0) probs) eqn:E; [| reflexivity].
    apply existsb_exists in E. destruct E as [v [Hv E]].
    apply Qltb_true in E. specialize (H v Hv). exfalso. lra.
Qed.

(** What a successful draw tells. *)
Lemma multinomial_Ok (probs : list Q) (draw i : nat) :
  multinomial probs draw = Ok i ->
  (i < length probs)%nat /\ 0 < nth i probs 0.
Proof.
  unfold multinomial. destruct probs as [| w t]; [discriminate |].
  destruct (existsb (fun v => Qltb v 0) (w :: t)) eqn:E1; [discriminate |].
  destruct (Qeq_bool (tsum (w :: t)) 0) eqn:E2; [discriminate |].
  intro H. inversion H as [Hi]. clear H.
  pose proof (proj1 (no_negative_entry _) E1) as Hnn. clear E1.
  apply Qeq_bool_neq in E2.
  assert (Hs : 0 < tsum (w :: t)).
  { pose proof (tsum_nonneg _ Hnn) as Hn. destruct (Qlt_le_dec 0 (tsum (w :: t))) as [L | L].
    - exact L.
    - exfalso. apply E2. lra. }
  destruct (positive_entry _ Hnn Hs) as [j Hj].
  apply support_In in Hj.
  apply support_In. apply nth_In. apply Nat.mod_upper_bound.
  destruct (support (w :: t)); [destruct Hj | discriminate].
Qed.

(** A valid tensor of weights is always accepted. *)
Lemma multinomial_total (probs : list Q) (draw : nat) :
  probs <> [] -> (forall v, In v probs -> 0 <= v) -> 0 < tsum probs ->
  exists i, multinomial probs draw = Ok i.
Proof.
  intros Hne Hx Hs. unfold multinomial. destruct probs as [| w t]; [congruence |].
  rewrite (proj2 (no_negative_entry _) Hx).
  destruct (Qeq_bool (tsum (w :: t)) 0) eqn:E.
  - apply Qeq_bool_iff in E. exfalso. lra.
  - eexists. reflexivity.
Qed.

(** Every category of positive weight is drawn for some draw. *)
Lemma multinomial_reach (probs : list Q) (i : nat) :
  (forall v, In v probs -> 0 <= v) ->
  (i < length probs)%nat -> 0 < nth i probs 0 ->
  exists draw, multinomial probs draw = Ok i.
Proof.
  intros Hx Hi Hp.
  assert (Hin : In i (support probs)) by (apply support_In; auto).
  destruct (In_nth _ _ 0%nat Hin) as [n [Hn Hnth]].
  exists n. unfold multinomial. destruct probs as [| w t]; [simpl in Hi; lia |].
  pose proof (tsum_ge_nth _ i Hx Hi) as Hge.
  rewrite (proj2 (no_negative_entry _) Hx).
  destruct (Qeq_bool (tsum (w :: t)) 0) eqn:E.
  - apply Qeq_bool_iff in E. exfalso. lra.
  - rewrite Nat.mod_small by exact Hn. rewrite Hnth. reflexivity.
Qed.

(** ** The nucleus of TopPSampler *)

Lemma TopP_nucleus_eq (self : TopPSampler) (logits : list Q) :
  TopP_nucleus exp tie self logits =
  (let f := zero_from (TopP_cutoff_index exp tie self logits + 1)
                      (TopP_sorted_probs exp tie logits) in
   map (fun v => v / tsum f) f,
   TopP_sorted_indices exp tie logits).
Proof. reflexivity. Qed.

Lemma TopP_sorted_length (logits : list Q) :
  length (TopP_sorted_probs exp tie logits) = length logits /\
  length (TopP_sorted_indices exp tie logits) = length logits.
Proof.
  unfold TopP_sorted_probs, TopP_sorted_indices.
  destruct (sort_desc_length (softmax exp logits)) as [H1 H2].
  rewrite H1, H2, softmax_length. auto.
Qed.

Lemma TopP_sorted_pos (logits : list Q) (v : Q) :
  In v (TopP_sorted_probs exp tie logits) -> 0 < v.
Proof.
  intro H. apply softmax_In_pos with (x := logits).
  apply (Permutation_in _ (sort_desc_values_perm (softmax exp logits))). exact H.
Qed.

Lemma firstn_In_pos (n : nat) (x : list Q) :
  (forall v, In v x -> 0 < v) -> forall v, In v (firstn n x) -> 0 < v.
Proof.
  intros H v Hv. apply H. rewrite <- (firstn_skipn n x).
  apply in_or_app. left. exact Hv.
Qed.

(** The mass kept by the mask is positive: the division that normalises
    [filtered_probs] never has a zero denominator. *)
Lemma TopP_kept_mass_pos (self : TopPSampler) (logits : list Q) :
  logits <> [] ->
  0 < tsum (zero_from (TopP_cutoff_index exp tie self logits + 1)
                      (TopP_sorted_probs exp tie logits)).
Proof.
  intro Hne. rewrite zero_from_sum. apply tsum_pos.
  - destruct (TopP_sorted_length logits) as [Hl _].
    destruct (TopP_sorted_probs exp tie logits) as [| v t].
    + destruct logits; [congruence | discriminate].
    + rewrite Nat.add_1_r. discriminate.
  - apply firstn_In_pos. apply TopP_sorted_pos.
Qed.

Lemma nth_map_div (f : list Q) (s : Q) (j : nat) :
  (j < length f)%nat -> nth j (map (fun v => v / s) f) 0 = nth j f 0 / s.
Proof.
  intro H. rewrite (nth_indep _ 0 (0 / s)) by (rewrite length_map; exact H).
  apply (map_nth (fun v => v / s)).
Qed.

Lemma TopP_filtered_length (self : TopPSampler) (logits : list Q) :
  length (TopP_filtered_probs exp tie self logits) = length logits.
Proof.
  unfold TopP_filtered_probs. rewrite TopP_nucleus_eq. simpl.
  rewrite length_map, zero_from_length. apply TopP_sorted_length.
Qed.

(** Positions up to [cutoff_index] keep a positive weight. *)
Lemma TopP_filtered_kept (self : TopPSampler) (logits : list Q) (j : nat) :
  (j < length logits)%nat ->
  (j <= TopP_cutoff_index exp tie self logits)%nat ->
  0 < nth j (TopP_filtered_probs exp tie self logits) 0.
Proof.
  intros Hj Hc. destruct (TopP_sorted_length logits) as [Hl _].
  unfold TopP_filtered_probs. rewrite TopP_nucleus_eq. simpl.
  rewrite nth_map_div by (rewrite zero_from_length; lia).
  rewrite zero_from_nth_kept by lia.
  apply Qdiv_pos.
  - apply TopP_sorted_pos with (logits := logits). apply nth_In. lia.
  - apply TopP_kept_mass_pos. destruct logits; [simpl in Hj; lia | discriminate].
Qed.

(** Positions after [cutoff_index] have weight zero. *)
Lemma TopP_filtered_masked (self : TopPSampler) (logits : list Q) (j : nat) :
  (TopP_cutoff_index exp tie self logits < j)%nat ->
  nth j (TopP_filtered_probs exp tie self logits) 0 == 0.
Proof.
  intros Hc. destruct (TopP_sorted_length logits) as [Hl _].
  destruct (Nat.lt_ge_cases j (length logits)) as [Hj | Hj].
  - unfold TopP_filtered_probs. rewrite TopP_nucleus_eq. simpl.
    rewrite nth_map_div by (rewrite zero_from_length; lia).
    rewrite zero_from_nth_masked by lia. unfold Qdiv. ring.
  - rewrite nth_overflow by (rewrite TopP_filtered_length; lia). reflexivity.
Qed.

Lemma TopP_filtered_nonneg (self : TopPSampler) (logits : list Q) (v : Q) :
  logits <> [] -> In v (TopP_filtered_probs exp tie self logits) -> 0 <= v.
Proof.
  intros Hne H. destruct (In_nth _ _ 0 H) as [j [Hj <-]].
  rewrite TopP_filtered_length in Hj.
  destruct (Nat.le_gt_cases j (TopP_cutoff_index exp tie self logits)) as [L | L].
  - apply Qlt_le_weak. apply TopP_filtered_kept; assumption.
  - rewrite (TopP_filtered_masked self logits j L). lra.
Qed.

Lemma TopP_filtered_sum (self : TopPSampler) (logits : list Q) :
  logits <> [] -> tsum (TopP_filtered_probs exp tie self logits) == 1.
Proof.
  intro Hne. unfold TopP_filtered_probs. rewrite TopP_nucleus_eq. simpl.
  rewrite tsum_map_div. apply Qdiv_same. apply TopP_kept_mass_pos. exact Hne.
Qed.

(** [cumulative_probs] is ascending, as [torch.searchsorted] expects. *)
Lemma TopP_cumulative_ascending (logits : list Q) :
  StronglySorted Qle (cumsum (TopP_sorted_probs exp tie logits)).
Proof.
  apply cumsum_from_ascending. intros v Hv.
  apply Qlt_le_weak. apply (TopP_sorted_pos logits). exact Hv.
Qed.

Lemma TopPSampler_call_eq (self : TopPSampler) (logits : list Q) (draw : nat) :
  TopPSampler_call exp tie self logits draw =
  (j <- multinomial (TopP_filtered_probs exp tie self logits) draw ;;
   tensor_index (TopP_sorted_indices exp tie logits) j).
Proof. reflexivity. Qed.

(** A returned index sits at a sorted position not after [cutoff_index]. *)
Lemma TopPSampler_call_Ok (self : TopPSampler) (logits : list Q) (draw i : nat) :
  TopPSampler_call exp tie self logits draw = Ok i ->
  exists j, (j < length logits)%nat /\
            (j <= TopP_cutoff_index exp tie self logits)%nat /\
            nth_error (TopP_sorted_indices exp tie logits) j = Some i.
Proof.
  rewrite TopPSampler_call_eq.
  destruct (multinomial (TopP_filtered_probs exp tie self logits) draw) as [j | e] eqn:E;
    [| discriminate].
  simpl. unfold tensor_index.
  destruct (nth_error (TopP_sorted_indices exp tie logits) j) as [v |] eqn:En;
    [| discriminate].
  intro H. inversion H; subst v. clear H.
  apply multinomial_Ok in E. destruct E as [Hj Hp].
  rewrite TopP_filtered_length in Hj.
  exists j. repeat split; [exact Hj | | exact En].
  destruct (Nat.le_gt_cases j (TopP_cutoff_index exp tie self logits)) as [L | L];
    [exact L |].
  rewrite (TopP_filtered_masked self logits j L) in Hp. exfalso. lra.
Qed.

(** On a non-empty vector the call returns an index. *)
Lemma TopPSampler_call_total (self : TopPSampler) (logits : list Q) (draw : nat) :
  logits <> [] -> exists i, TopPSampler_call exp tie self logits draw = Ok i.
Proof.
  intro Hne. rewrite TopPSampler_call_eq.
  destruct (multinomial_total (TopP_filtered_probs exp tie self logits) draw) as [j Hj].
  - intro E. apply (f_equal (@length Q)) in E.
    rewrite TopP_filtered_length in E. destruct logits; [congruence | discriminate].
  - intros v Hv. apply (TopP_filtered_nonneg self logits); assumption.
  - rewrite (TopP_filtered_sum self logits Hne). lra.
  - rewrite Hj. simpl. unfold tensor_index.
    apply multinomial_Ok in Hj. destruct Hj as [Hl _].
    rewrite TopP_filtered_length in Hl.
    destruct (nth_error (TopP_sorted_indices exp tie logits) j) as [v |] eqn:En.
    + exists v. reflexivity.
    + apply nth_error_None in En.
      destruct (TopP_sorted_length logits) as [_ H2]. lia.
Qed.

(** Every sorted position up to [cutoff_index] is returned for some draw. *)
Lemma TopPSampler_call_reach (self : TopPSampler) (logits : list Q) (j : nat) :
  (j < length logits)%nat ->
  (j <= TopP_cutoff_index exp tie self logits)%nat ->
  exists draw,
    TopPSampler_call exp tie self logits draw
    = Ok (nth j (TopP_sorted_indices exp tie logits) 0%nat).
Proof.
  intros Hj Hc.
  assert (Hne : logits <> []) by (destruct logits; [simpl in Hj; lia | discriminate]).
  destruct (multinomial_reach (TopP_filtered_probs exp tie self logits) j) as [d Hd].
  - intros v Hv. apply (TopP_filtered_nonneg self logits); assumption.
  - rewrite TopP_filtered_length. exact Hj.
  - apply TopP_filtered_kept; assumption.
  - exists d. rewrite TopPSampler_call_eq, Hd. simpl. unfold tensor_index.
    rewrite (nth_error_nth' _ 0%nat); [reflexivity |].
    destruct (TopP_sorted_length logits) as [_ H2]. lia.
Qed.

Lemma cumsum_from_length (acc : Q) (x : list Q) :
  length (cumsum_from acc x) = length x.
Proof.
  revert acc. induction x as [| v t IH]; intro acc; simpl.
  - reflexivity.
  - rewrite IH. reflexivity.
Qed.

Lemma searchsorted_all_below (s : list Q) (v : Q) :
  (forall c, In c s -> c < v) -> searchsorted s v = length s.
Proof.
  induction s as [| c t IH]; simpl; intro H.
  - reflexivity.
  - assert (L : c < v) by (apply H; auto).
    apply Qltb_true in L. unfold Qltb in L. apply negb_true_iff in L.
    rewrite L, IH by (intros; apply H; auto). reflexivity.
Qed.


(** ** torch.topk *)

Lemma topk_in_range (x : list Q) (n : Z) :
  (0 <= n <= Z.of_nat (length x))%Z ->
  topk tie x n = Ok (firstn (Z.to_nat n) (fst (sort_desc tie x)),
                     firstn (Z.to_nat n) (snd (sort_desc tie x))).
Proof.
  intro H. unfold topk.
  replace ((n <? 0) || (Z.of_nat (length x) <? n))%Z with false; [reflexivity |].
  symmetry. apply orb_false_iff. split; apply Z.ltb_ge; lia.
Qed.

Lemma topk_out_of_range (x : list Q) (n : Z) :
  (n < 0 \/ Z.of_nat (length x) < n)%Z ->
  topk tie x n = Raise RuntimeError_topk_range.
Proof.
  intro H. unfold topk.
  replace ((n <? 0) || (Z.of_nat (length x) <? n))%Z with true; [reflexivity |].
  symmetry. apply orb_true_iff. destruct H; [left | right]; apply Z.ltb_lt; lia.
Qed.

Lemma softmax_distribution (x : list Q) : x <> [] -> distribution (softmax exp x).
Proof.
  intro H. split.
  - intros v Hv. apply Qlt_le_weak. apply (softmax_In_pos x). exact Hv.
  - apply softmax_sum_one. exact H.
Qed.

Lemma StronglySorted_app_rel {A : Type} (R : A -> A -> Prop) (l1 l2 : list A) :
  StronglySorted R (l1 ++ l2) ->
  forall a b, In a l1 -> In b l2 -> R a b.
Proof.
  induction l1 as [| c t IH]; simpl; intros Hs a b Ha Hb.
  - destruct Ha.
  - inversion Hs as [| c' t' Ht Hc]; subst.
    destruct Ha as [<- | Ha].
    + rewrite Forall_forall in Hc. apply Hc. apply in_or_app. right. exact Hb.
    + apply IH; assumption.
Qed.




(** C2, as the code has it.  When [k] is greater than the length of the
    logits vector the call raises the error of [torch.topk]: nothing clamps
    [k], and no index is returned. *)
Theorem TopKSampler_k_above_vocabulary
    (self : TopKSampler) (logits : list Q) (draw : nat) :
  (Z.of_nat (length logits) < k self)%Z ->
  TopKSampler_call exp tie self logits draw = Raise RuntimeError_topk_range.
Proof.
  intro H. unfold TopKSampler_call.
  rewrite topk_out_of_range by (right; exact H). reflexivity.
Qed.

(** ** Parameters and inputs that are never validated *)

Lemma TemperatureSampler_call_total
    (self : TemperatureSampler) (logits : list Q) (draw : nat) :
  logits <> [] -> ~ temperature self == 0 ->
  exists i, TemperatureSampler_call exp self logits draw = Ok i.
Proof.
  intros Hne Ht. unfold TemperatureSampler_call.
  destruct (Qeq_bool (temperature self) 0) eqn:E.
  - apply Qeq_bool_iff in E. contradiction.
  - unfold Temperature_probs.
    set (scaled := map (fun v => v / temperature self) logits).
    assert (Hs : scaled <> []) by (destruct logits; [congruence | discriminate]).
    destruct (softmax_distribution scaled Hs) as [Hnn Hsum].
    apply multinomial_total.
    + intro E0. apply (f_equal (@length Q)) in E0. rewrite softmax_length in E0.
      destruct scaled; [congruence | discriminate].
    + exact Hnn.
    + rewrite Hsum. lra.
Qed.

(** X15. A [k] below one is refused when the sampler is called, by
    torch and whatever the logits: [torch.topk] raises for a negative [k],
    and for [k = 0] it returns empty tensors, on which [torch.multinomial]
    raises. *)
Theorem TopKSampler_k_below_one
    (self : TopKSampler) (logits : list Q) (draw : nat) :
  (k self < 1)%Z ->
  TopKSampler_call exp tie self logits draw
  = if (k self =? 0)%Z then Raise RuntimeError_no_category
    else Raise RuntimeError_topk_range.
Proof.
  intro H. unfold TopKSampler_call.
  destruct (k self =? 0)%Z eqn:E.
  - apply Z.eqb_eq in E. rewrite E. rewrite topk_in_range by lia. reflexivity.
  - apply Z.eqb_neq in E. rewrite topk_out_of_range by lia. reflexivity.
Qed.

(** C7, as the code has it.  The constructors store their argument and
    never raise, whatever its value: a negative temperature, a [k] below one
    and a threshold outside [(0, 1]] are kept as given. *)
Theorem constructors_do_not_validate (t : Q) (n : Z) (q : Q) :
  TemperatureSampler_init t = Ok {| temperature := t |} /\
  TopKSampler_init n = Ok {| k := n |} /\
  TopPSampler_init q = Ok {| p := q |}.
Proof.
  split; [reflexivity |]. split; reflexivity.
Qed.

Lemma argmax_from_bound {A : Type} `{TorchOrd A}
    (l : list A) (best : A) (bi i : nat) :
  (bi < i)%nat -> (argmax_from best bi i l < i + length l)%nat.
Proof.
  revert best bi i. induction l as [| x t IH]; intros best bi i Hb; simpl.
  - lia.
  - destruct (tgt x best).
    + specialize (IH x i (S i) ltac:(lia)). lia.
    + specialize (IH best bi (S i) ltac:(lia)). lia.
Qed.

Lemma tgt_nan_best (x : tfloat) : tgt x NaN = false.
Proof. destruct x; reflexivity. Qed.

Lemma tgt_nan_loses (best : tfloat) : tgt NaN best = false -> best = NaN.
Proof. destruct best; simpl; intro H; try discriminate; reflexivity. Qed.

(** [torch.argmax] returns the position of a [nan] when there is one. *)
Lemma argmax_from_nan (l pre : list tfloat) (best : tfloat) (bi : nat) :
  (bi < length pre)%nat ->
  nth bi pre (Fin 0) = best ->
  (In NaN pre -> best = NaN) ->
  In NaN (pre ++ l) ->
  nth (argmax_from best bi (length pre) l) (pre ++ l) (Fin 0) = NaN.
Proof.
  revert pre best bi. induction l as [| x t IH]; intros pre best bi Hbi Hbest Hnan Hin.
  - simpl. rewrite app_nil_r in *. rewrite Hbest. apply Hnan. exact Hin.
  - simpl.
    assert (Hlen : length (pre ++ [x]) = S (length pre))
      by (rewrite length_app; simpl; lia).
    replace (pre ++ x :: t) with ((pre ++ [x]) ++ t) in *
      by (rewrite <- app_assoc; reflexivity).
    rewrite <- Hlen.
    destruct (tgt x best) eqn:E.
    + apply IH.
      * lia.
      * rewrite app_nth2 by lia. rewrite Nat.sub_diag. reflexivity.
      * intro H1. apply in_app_or in H1. destruct H1 as [H1 | [H1 | []]].
        -- rewrite (Hnan H1), tgt_nan_best in E. discriminate.
        -- exact H1.
      * exact Hin.
    + apply IH.
      * lia.
      * rewrite app_nth1 by lia. exact Hbest.
      * intro H1. apply in_app_or in H1. destruct H1 as [H1 | [H1 | []]].
        -- apply Hnan. exact H1.
        -- subst x. apply tgt_nan_loses. exact E.
      * exact Hin.
Qed.

(** C8, as the code has it.  No sampler inspects its input.  On a
    non-empty vector [GreedySampler] returns an index whatever the entries
    are, and when a [nan] is present the index returned is the position of a
    [nan].  On the empty vector every call fails with the error of the torch
    primitive that refuses it: [argmax] for [GreedySampler] and for
    [TemperatureSampler] at temperature zero, [multinomial] or [topk] for the
    others. *)
Theorem samplers_do_not_validate_logits
    (ts : TemperatureSampler) (ks : TopKSampler) (ps : TopPSampler) (draw : nat) :
  (forall logits : list tfloat, logits <> [] ->
     exists i, GreedySampler_call logits = Ok i /\
               (i < length logits)%nat /\
               (In NaN logits -> nth i logits (Fin 0) = NaN)) /\
  GreedySampler_call (@nil tfloat) = Raise IndexError_argmax_empty /\
  GreedySampler_call (@nil Q) = Raise IndexError_argmax_empty /\
  TemperatureSampler_call exp ts [] draw
  = (if Qeq_bool (temperature ts) 0 then Raise IndexError_argmax_empty
     else Raise RuntimeError_no_category) /\
  TopKSampler_call exp tie ks [] draw
  = (if (k ks =? 0)%Z then Raise RuntimeError_no_category
     else Raise RuntimeError_topk_range) /\
  TopPSampler_call exp tie ps [] draw = Raise RuntimeError_no_category.
Proof.
  split; [| split; [reflexivity | split; [reflexivity | split; [| split]]]].
  - intros logits Hne. destruct logits as [| x t]; [congruence |].
    exists (argmax_from x 0%nat 1%nat t). split; [reflexivity |]. split.
    + pose proof (argmax_from_bound t x 0%nat 1%nat ltac:(lia)). simpl. lia.
    + intro Hin. apply (argmax_from_nan t [x] x 0%nat); simpl.
      * lia.
      * reflexivity.
      * intros [H | []]. exact H.
      * exact Hin.
  - unfold TemperatureSampler_call. destruct (Qeq_bool (temperature ts) 0); reflexivity.
  - unfold TopKSampler_call. destruct (k ks =? 0)%Z eqn:E.
    + apply Z.eqb_eq in E. rewrite E. reflexivity.
    + apply Z.eqb_neq in E. rewrite topk_out_of_range; [reflexivity |]. simpl. lia.
  - reflexivity.
Qed.

End SamplerProofs.

(** ** The stable order selects the lowest indices

    When [torch.topk] keeps the lower index among equal logits (the order
    [tie_low]), the indices it returns are the ones the rule "ties broken by
    lowest index" designates. *)

Lemma before_low_true (a b : Q * nat) :
  before tie_low a b = true <->
  (fst b < fst a \/ (fst a == fst b /\ (snd a <= snd b)%nat)).
Proof.
  unfold before, tie_low.
  rewrite orb_true_iff, andb_true_iff, Qltb_true, Qeq_bool_iff, Nat.leb_le.
  reflexivity.
Qed.

Lemma before_low_false (a b : Q * nat) :
  before tie_low a b = false -> before tie_low b a = true.
Proof.
  intro H. apply before_low_true.
  destruct (before tie_low a b) eqn:E; [discriminate |]. clear H.
  assert (N : ~ (fst b < fst a \/ (fst a == fst b /\ (snd a <= snd b)%nat))).
  { intro X. apply before_low_true in X. congruence. }
  destruct (Qlt_le_dec (fst a) (fst b)) as [L | L]; [left; exact L |].
  destruct (Qlt_le_dec (fst b) (fst a)) as [L' | L'].
  - exfalso. apply N. left. exact L'.
  - right. split; [lra |].
    destruct (Nat.le_gt_cases (snd a) (snd b)) as [M | M]; [| lia].
    exfalso. apply N. right. split; [lra | exact M].
Qed.

Lemma before_low_trans (a b c : Q * nat) :
  before tie_low a b = true -> before tie_low b c = true ->
  before tie_low a c = true.
Proof.
  rewrite !before_low_true. intros [H1 | [H1 H1']] [H2 | [H2 H2']].
  - left. lra.
  - left. lra.
  - left. lra.
  - right. split; [lra | lia].
Qed.

Lemma insert_low_sorted (a : Q * nat) (l : list (Q * nat)) :
  StronglySorted (fun u v => before tie_low u v = true) l ->
  StronglySorted (fun u v => before tie_low u v = true) (insert_desc tie_low a l).
Proof.
  induction l as [| b t IH]; simpl; intro Hs.
  - constructor; constructor.
  - inversion Hs as [| b' t' Ht Hb]; subst.
    destruct (before tie_low a b) eqn:E.
    + constructor; [exact Hs |]. constructor; [exact E |].
      rewrite Forall_forall in *. intros c Hc.
      apply (before_low_trans a b c E). apply Hb. exact Hc.
    + constructor; [apply IH; exact Ht |].
      rewrite Forall_forall in *. intros c Hc.
      apply (Permutation_in _ (insert_desc_perm tie_low a t)) in Hc.
      destruct Hc as [<- | Hc]; [apply before_low_false; exact E | apply Hb; exact Hc].
Qed.

Lemma sort_pairs_low_sorted (x : list Q) :
  StronglySorted (fun u v => before tie_low u v = true) (sort_pairs tie_low x).
Proof.
  unfold sort_pairs. induction (enumerate x) as [| a l IH]; simpl.
  - constructor.
  - apply insert_low_sorted. exact IH.
Qed.

Lemma sort_low_ranked (x : list Q) :
  StronglySorted (ranked_before x) (snd (sort_desc tie_low x)).
Proof.
  unfold sort_desc. simpl.
  pose proof (sort_pairs_low_sorted x) as Hs.
  assert (Hin : forall a, In a (sort_pairs tie_low x) -> nth (snd a) x 0 = fst a).
  { intros [v i] Ha. apply (sort_pairs_In tie_low) in Ha. simpl. apply Ha. }
  induction Hs as [| a l Hl IH Ha]; simpl.
  - constructor.
  - constructor; [apply IH; intros; apply Hin; simpl; auto |].
    rewrite Forall_forall in *. intros j Hj.
    apply in_map_iff in Hj. destruct Hj as [b [<- Hb]].
    specialize (Ha b Hb). apply before_low_true in Ha.
    unfold ranked_before.
    rewrite (Hin a) by (simpl; auto). rewrite (Hin b) by (simpl; auto).
    exact Ha.
Qed.

Lemma beats_of_ranked (x : list Q) (j i : nat) :
  j <> i -> ranked_before x j i -> beats x j i = true.
Proof.
  intros Hne [H | [H1 H2]]; unfold beats; apply orb_true_iff.
  - left. apply Qltb_true. exact H.
  - right. apply andb_true_iff. split; [apply Qeq_bool_iff; exact H1 |].
    apply Nat.ltb_lt. lia.
Qed.

Lemma beats_not_ranked (x : list Q) (j i : nat) :
  ranked_before x i j -> beats x j i = false.
Proof.
  intros H. destruct (beats x j i) eqn:E; [exfalso | reflexivity].
  unfold beats in E. apply orb_true_iff in E.
  rewrite andb_true_iff, Qltb_true, Qeq_bool_iff, Nat.ltb_lt in E.
  destruct H as [H | [H1 H2]]; destruct E as [E | [E1 E2]]; try lra; lia.
Qed.

Lemma filter_length_all {A : Type} (f : A -> bool) (l : list A) :
  (forall a, In a l -> f a = true) -> length (filter f l) = length l.
Proof.
  induction l as [| a t IH]; simpl; intro H.
  - reflexivity.
  - rewrite (H a) by auto. simpl. rewrite IH by (intros; apply H; auto). reflexivity.
Qed.

Lemma filter_length_none {A : Type} (f : A -> bool) (l : list A) :
  (forall a, In a l -> f a = false) -> length (filter f l) = 0%nat.
Proof.
  induction l as [| a t IH]; simpl; intro H.
  - reflexivity.
  - rewrite (H a) by auto. apply IH. intros; apply H; auto.
Qed.

Lemma filter_length_perm {A : Type} (f : A -> bool) (l l' : list A) :
  Permutation l l' -> length (filter f l) = length (filter f l').
Proof.
  induction 1; simpl.
  - reflexivity.
  - destruct (f x); simpl; congruence.
  - destruct (f x), (f y); reflexivity.
  - congruence.
Qed.

Lemma StronglySorted_app_tail {A : Type} (R : A -> A -> Prop) (l1 l2 : list A) :
  StronglySorted R (l1 ++ l2) -> StronglySorted R l2.
Proof.
  induction l1 as [| a t IH]; simpl; intro H; [exact H |].
  inversion H; subst. apply IH. assumption.
Qed.

(** In a duplicate-free list ranked by [ranked_before], the entries that
    beat the one at a given place are the entries before it. *)
Lemma rank_is_position (x : list Q) (l1 l2 : list nat) (i : nat) :
  NoDup (l1 ++ i :: l2) ->
  StronglySorted (ranked_before x) (l1 ++ i :: l2) ->
  length (filter (fun j => beats x j i) (l1 ++ i :: l2)) = length l1.
Proof.
  intros Hnd Hs. rewrite filter_app, length_app.
  rewrite filter_length_all, filter_length_none; [lia | |].
  - intros j Hj. apply beats_not_ranked.
    pose proof (StronglySorted_app_tail _ _ _ Hs) as Ht.
    destruct Hj as [<- | Hj].
    + right. split; [reflexivity | lia].
    + inversion Ht as [| a l Hl Ha]; subst.
      rewrite Forall_forall in Ha. apply Ha. exact Hj.
  - intros j Hj. apply beats_of_ranked.
    + intros ->. apply NoDup_remove_2 in Hnd. apply Hnd.
      apply in_or_app. left. exact Hj.
    + apply (StronglySorted_app_rel _ _ _ Hs j i Hj). simpl. auto.
Qed.

Lemma In_firstn_split (n : nat) (l1 l2 : list nat) (i : nat) :
  NoDup (l1 ++ i :: l2) ->
  (In i (firstn n (l1 ++ i :: l2)) <-> (length l1 < n)%nat).
Proof.
  intro Hnd. rewrite firstn_app. split.
  - intro H. apply in_app_or in H. destruct H as [H | H].
    + exfalso. apply NoDup_remove_2 in Hnd. apply Hnd.
      apply in_or_app. left.
      rewrite <- (firstn_skipn n l1). apply in_or_app. left. exact H.
    + destruct (n - length l1)%nat eqn:E; [destruct H | lia].
  - intro H. apply in_or_app. right.
    destruct (n - length l1)%nat eqn:E; [lia |]. simpl. auto.
Qed.

Lemma lowest_index_topk_In (x : list Q) (n i : nat) :
  In i (lowest_index_topk x n) <->
  (i < length x)%nat /\
  (length (filter (fun j => beats x j i) (seq 0 (length x))) < n)%nat.
Proof.
  unfold lowest_index_topk. rewrite filter_In, in_seq, Nat.ltb_lt. intuition lia.
Qed.

(** With the stable order, [torch.topk] returns the indices of the largest
    entries with ties broken by lowest index. *)
Lemma topk_stable_is_lowest_index (x : list Q) (n i : nat) :
  In i (firstn n (snd (sort_desc tie_low x))) <-> In i (lowest_index_topk x n).
Proof.
  rewrite lowest_index_topk_In.
  pose proof (sort_desc_indices_perm tie_low x) as Hperm.
  pose proof (sort_low_ranked x) as Hs.
  set (si := snd (sort_desc tie_low x)) in *.
  assert (Hnd : NoDup si).
  { apply (Permutation_NoDup (Permutation_sym Hperm)). apply seq_NoDup. }
  rewrite <- (filter_length_perm _ _ _ Hperm).
  split.
  - intro H.
    assert (Hin : In i si).
    { rewrite <- (firstn_skipn n si). apply in_or_app. left. exact H. }
    destruct (in_split _ _ Hin) as [l1 [l2 E]]. rewrite E in *.
    split.
    + apply (Permutation_in _ Hperm) in Hin. apply in_seq in Hin. lia.
    + rewrite (rank_is_position x l1 l2 i Hnd Hs).
      apply (In_firstn_split n l1 l2 i Hnd). exact H.
  - intros [Hi Hr].
    assert (Hin : In i si).
    { apply (Permutation_in _ (Permutation_sym Hperm)). apply in_seq. lia. }
    destruct (in_split _ _ Hin) as [l1 [l2 E]]. rewrite E in *.
    rewrite (rank_is_position x l1 l2 i Hnd Hs) in Hr.
    apply (In_firstn_split n l1 l2 i Hnd). exact Hr.
Qed.

(** ** The samplers on concrete inputs *)

Lemma exp_approx_pos (x : Q) : 0 < exp_approx x.
Proof.
  unfold exp_approx. destruct (Qle_bool 0 x) eqn:E.
  - apply Qle_bool_iff in E. lra.
  - assert (L : x < 0) by (apply Qltb_true; unfold Qltb; rewrite E; reflexivity).
    apply Qdiv_pos; lra.
Qed.



Lemma TopKSampler_k_above_vocabulary_witness :
  (Z.of_nat (length [1; 3; 2; 0]) < 5)%Z /\
  TopKSampler_call exp_approx tie_low {| k := 5 |} [1; 3; 2; 0] 1
  = Raise RuntimeError_topk_range.
Proof.
  assert (Hk : (Z.of_nat (length [1; 3; 2; 0]) < 5)%Z) by (simpl; lia).
  split; [exact Hk |].
  exact (TopKSampler_k_above_vocabulary exp_approx tie_low
           {| k := 5 |} [1; 3; 2; 0] 1%nat Hk).
Defined.

Lemma samplers_do_not_validate_logits_witness :
  [Fin 1; PInf; Fin 2] <> [] /\
  exists i, GreedySampler_call [Fin 1; PInf; Fin 2] = Ok i /\
            (i < length [Fin 1; PInf; Fin 2])%nat.
Proof.
  assert (Hne : [Fin 1; PInf; Fin 2] <> []) by discriminate.
  split; [exact Hne |].
  destruct (samplers_do_not_validate_logits exp_approx tie_low
              {| temperature := 1 |} {| k := 1 |} {| p := 1 |} 0%nat) as [H _].
  destruct (H [Fin 1; PInf; Fin 2] Hne) as [i [Hi [Hl _]]].
  exists i. split; [exact Hi | exact Hl].
Defined.

(** ** Where the code departs from the specification *)

(** C2 as stated fails: with [k = 3] on a vector of two logits the call
    returns no index. *)
Lemma TopKSampler_no_clamp_counterexample :
  (1 <= 3)%Z /\ (Z.of_nat (length [1; 2]) < 3)%Z /\
  ~ exists i, TopKSampler_call exp_approx tie_low {| k := 3 |} [1; 2] 0 = Ok i.
Proof.
  split; [lia |]. split; [simpl; lia |].
  intros [i H]. vm_compute in H. discriminate.
Qed.


(** With the stable order the two selections agree on this input. *)
Example topk_stable_example :
  topk tie_low [1; 3; 2; 3; 0] 2 = Ok ([3; 3], [1%nat; 3%nat]) /\
  lowest_index_topk [1; 3; 2; 3; 0] 2 = [1%nat; 3%nat].
Proof. split; reflexivity. Qed.

(** The inclusive threshold on two equal logits: each token has
    probability one half, and with [p = 1/2] the first token alone is kept. *)
Example TopP_inclusive_threshold_example :
  softmax exp_approx [0; 0] = [1 # 2; 1 # 2] /\
  TopP_cutoff_index exp_approx tie_low {| p := 1 # 2 |} [0; 0] = 0%nat /\
  support (TopP_filtered_probs exp_approx tie_low {| p := 1 # 2 |} [0; 0]) = [0%nat] /\
  TopPSampler_call exp_approx tie_low {| p := 1 # 2 |} [0; 0] 1 = Ok 0%nat.
Proof. repeat split. Qed.

(** C7 as stated fails: a negative temperature, [k = 0] and [p = 2] are
    all accepted by the constructors. *)
Lemma constructors_accept_invalid_counterexample :
  -1 < 0 /\ (0 < 1)%Z /\ ~ (0 < 2 <= 1) /\
  TemperatureSampler_init (-1) = Ok {| temperature := -1 |} /\
  TopKSampler_init 0 = Ok {| k := 0 |} /\
  TopPSampler_init 2 = Ok {| p := 2 |}.
Proof.
  split; [reflexivity |]. split; [lia |]. split.
  - intros [_ H]. apply H. reflexivity.
  - repeat split.
Qed.

(** C8 as stated fails: on a vector holding [nan], and on one holding
    [inf], [GreedySampler] raises nothing and returns the position of the
    non-finite entry. *)
Lemma GreedySampler_nan_counterexample :
  In NaN [Fin 1; NaN; Fin 2] /\
  GreedySampler_call [Fin 1; NaN; Fin 2] = Ok 1%nat /\
  In PInf [Fin 1; Fin 2; PInf] /\
  GreedySampler_call [Fin 1; Fin 2; PInf] = Ok 2%nat.
Proof.
  split; [simpl; auto |]. split; [reflexivity |].
  split; [simpl; auto |]. reflexivity.
Qed.

(** * Further properties of the samplers *)

Section FurtherProperties.

Variable exp : Q -> Q.
Hypothesis exp_pos : forall x, 0 < exp x.
Variable tie : nat -> nat -> bool.

(** ** What a call of TopKSampler returns *)

Lemma TopKSampler_call_in_range
    (self : TopKSampler) (logits : list Q) (draw : nat) :
  (0 <= k self <= Z.of_nat (length logits))%Z ->
  TopKSampler_call exp tie self logits draw =
  (pos <- multinomial
            (softmax exp (firstn (Z.to_nat (k self)) (fst (sort_desc tie logits)))) draw ;;
   tensor_index (firstn (Z.to_nat (k self)) (snd (sort_desc tie logits))) pos).
Proof.
  intro H. unfold TopKSampler_call. rewrite (topk_in_range tie) by exact H.
  reflexivity.
Qed.

Lemma TopKSampler_call_Ok
    (self : TopKSampler) (logits : list Q) (draw i : nat) :
  TopKSampler_call exp tie self logits draw = Ok i ->
  (1 <= k self <= Z.of_nat (length logits))%Z /\
  In i (firstn (Z.to_nat (k self)) (snd (sort_desc tie logits))).
Proof.
  intro H.
  destruct (Z_lt_dec (k self) 0) as [L | L].
  { unfold TopKSampler_call in H.
    rewrite (topk_out_of_range tie) in H by (left; exact L). discriminate. }
  destruct (Z_lt_dec (Z.of_nat (length logits)) (k self)) as [L' | L'].
  { unfold TopKSampler_call in H.
    rewrite (topk_out_of_range tie) in H by (right; exact L'). discriminate. }
  rewrite TopKSampler_call_in_range in H by lia.
  destruct (multinomial
              (softmax exp (firstn (Z.to_nat (k self)) (fst (sort_desc tie logits)))) draw)
    as [pos | e] eqn:E; [| discriminate].
  unfold bind, tensor_index in H.
  destruct (nth_error (firstn (Z.to_nat (k self)) (snd (sort_desc tie logits))) pos)
    as [v |] eqn:En; [| discriminate].
  inversion H; subst v. clear H.
  split; [| apply (nth_error_In _ pos); exact En].
  apply (multinomial_Ok tie) in E. destruct E as [E _].
  rewrite softmax_length, length_firstn in E. lia.
Qed.

(** ** Indices stay inside the vocabulary *)

Lemma sorted_index_in_range (x : list Q) (i : nat) :
  In i (snd (sort_desc tie x)) -> (i < length x)%nat.
Proof.
  intro H. apply (Permutation_in _ (sort_desc_indices_perm tie x)) in H.
  apply in_seq in H. lia.
Qed.

Lemma firstn_In {A : Type} (n : nat) (l : list A) (a : A) :
  In a (firstn n l) -> In a l.
Proof.
  intro H. rewrite <- (firstn_skipn n l). apply in_or_app. left. exact H.
Qed.

Lemma TemperatureSampler_call_Ok
    (self : TemperatureSampler) (logits : list Q) (draw i : nat) :
  TemperatureSampler_call exp self logits draw = Ok i -> (i < length logits)%nat.
Proof.
  unfold TemperatureSampler_call. destruct (Qeq_bool (temperature self) 0).
  - destruct logits as [| x t]; [discriminate |]. simpl. intro H.
    inversion H; subst.
    pose proof (argmax_from_bound t x 0%nat 1%nat ltac:(lia)). simpl. lia.
  - intro H. apply (multinomial_Ok tie) in H. destruct H as [H _].
    unfold Temperature_probs in H. rewrite softmax_length, length_map in H. exact H.
Qed.

Lemma TopPSampler_call_index (self : TopPSampler) (logits : list Q) (draw i : nat) :
  TopPSampler_call exp tie self logits draw = Ok i -> (i < length logits)%nat.
Proof.
  intro H. apply (TopPSampler_call_Ok exp tie) in H.
  destruct H as [j [_ [_ Hn]]]. apply nth_error_In in Hn.
  unfold TopP_sorted_indices in Hn. apply sorted_index_in_range in Hn.
  rewrite softmax_length in Hn. exact Hn.
Qed.

(** X1. Whatever the parameters, the logits and the draw, an index returned
    by a sampler is a position of the logits vector: it lies in [[0, V)]. *)
Theorem sampler_index_in_vocabulary
    (ts : TemperatureSampler) (ks : TopKSampler) (ps : TopPSampler)
    (logits : list Q) (draw i : nat) :
  GreedySampler_call logits = Ok i \/
  TemperatureSampler_call exp ts logits draw = Ok i \/
  TopKSampler_call exp tie ks logits draw = Ok i \/
  TopPSampler_call exp tie ps logits draw = Ok i ->
  (i < length logits)%nat.
Proof.
  intros [H | [H | [H | H]]].
  - destruct logits as [| x t]; [discriminate |]. simpl in H.
    inversion H; subst.
    pose proof (argmax_from_bound t x 0%nat 1%nat ltac:(lia)). simpl. lia.
  - apply (TemperatureSampler_call_Ok ts logits draw). exact H.
  - apply TopKSampler_call_Ok in H. destruct H as [_ H].
    apply firstn_In in H. apply sorted_index_in_range in H. exact H.
  - apply (TopPSampler_call_index ps logits draw). exact H.
Qed.

(** ** The candidates of TopPSampler *)

Lemma searchsorted_monotone (s : list Q) (v w : Q) :
  v <= w -> (searchsorted s v <= searchsorted s w)%nat.
Proof.
  intro H. induction s as [| c t IH]; simpl; [lia |].
  destruct (Qle_bool v c) eqn:E1; [lia |].
  destruct (Qle_bool w c) eqn:E2; [| lia].
  apply Qle_bool_iff in E2.
  assert (X : Qle_bool v c = true) by (apply Qle_bool_iff; lra).
  congruence.
Qed.

(** X6. Raising the threshold only adds candidates: for [p1 <= p2] an
    index [TopPSampler(p1)] can return is one [TopPSampler(p2)] can return. *)
Theorem TopPSampler_candidates_grow_with_p
    (s1 s2 : TopPSampler) (logits : list Q) (i : nat) :
  p s1 <= p s2 ->
  (exists draw, TopPSampler_call exp tie s1 logits draw = Ok i) ->
  exists draw, TopPSampler_call exp tie s2 logits draw = Ok i.
Proof.
  intros Hp [draw H]. apply TopPSampler_call_Ok in H.
  destruct H as [j [Hj [Hc Hn]]].
  destruct (TopP_sorted_length exp tie logits) as [_ Hl].
  assert (Hi : nth j (TopP_sorted_indices exp tie logits) 0%nat = i)
    by (apply nth_error_nth; exact Hn).
  rewrite <- Hi. apply TopPSampler_call_reach; [exact exp_pos | exact Hj |].
  unfold TopP_cutoff_index in *.
  pose proof (searchsorted_monotone
                (cumsum (TopP_sorted_probs exp tie logits)) (p s1) (p s2) Hp).
  lia.
Qed.



(** ** TopKSampler with [k = 1] *)

Lemma TopKSampler_call_total
    (self : TopKSampler) (logits : list Q) (draw : nat) :
  (1 <= k self <= Z.of_nat (length logits))%Z ->
  exists i, TopKSampler_call exp tie self logits draw = Ok i.
Proof.
  intro Hk. rewrite TopKSampler_call_in_range by lia.
  destruct (sort_desc_length tie logits) as [Hl1 Hl2].
  set (n := Z.to_nat (k self)).
  set (vals := firstn n (fst (sort_desc tie logits))).
  set (idxs := firstn n (snd (sort_desc tie logits))).
  assert (Hlv : length vals = n) by (unfold vals; rewrite length_firstn; lia).
  assert (Hli : length idxs = n) by (unfold idxs; rewrite length_firstn; lia).
  assert (Hne : vals <> []).
  { intro E. rewrite E in Hlv. simpl in Hlv. lia. }
  destruct (softmax_distribution exp exp_pos vals Hne) as [Hnn Hsum].
  destruct (multinomial_total (softmax exp vals) draw) as [pos Hpos].
  - intro E. apply (f_equal (@length Q)) in E. rewrite softmax_length in E.
    simpl in E. lia.
  - exact Hnn.
  - rewrite Hsum. lra.
  - rewrite Hpos. unfold bind, tensor_index.
    apply (multinomial_Ok tie) in Hpos. destruct Hpos as [Hlt _].
    rewrite softmax_length in Hlt.
    destruct (nth_error idxs pos) as [i |] eqn:En.
    + exists i. reflexivity.
    + apply nth_error_None in En. lia.
Qed.

Lemma filter_length_zero {A : Type} (f : A -> bool) (l : list A) (a : A) :
  length (filter f l) = 0%nat -> In a l -> f a = false.
Proof.
  intros H Ha. destruct (f a) eqn:E; [| reflexivity].
  assert (X : In a (filter f l)) by (apply filter_In; auto).
  destruct (filter f l); [destruct X | discriminate].
Qed.

End FurtherProperties.

(** X9. When [torch.topk] keeps the lower index among equal logits,
    [TopKSampler] with [k = 1] returns, for every draw, the index
    [GreedySampler] returns on the same non-empty logits. *)
Theorem TopKSampler_one_stable_is_greedy
    (exp : Q -> Q) (exp_pos : forall x, 0 < exp x)
    (self : TopKSampler) (logits : list Q) (draw : nat) :
  k self = 1%Z ->
  logits <> [] ->
  TopKSampler_call exp tie_low self logits draw = GreedySampler_call logits.
Proof.
  intros Hk Hne.
  assert (Hpos : (0 < length logits)%nat)
    by (destruct logits; [congruence | simpl; lia]).
  destruct (TopKSampler_call_total exp exp_pos tie_low self logits draw) as [i Hi];
    [lia |].
  rewrite Hi. f_equal.
  apply TopKSampler_call_Ok in Hi. destruct Hi as [_ Hin].
  rewrite Hk in Hin. apply topk_stable_is_lowest_index in Hin.
  apply lowest_index_topk_In in Hin. destruct Hin as [Hi Hr].
  assert (Hb : forall j, (j < length logits)%nat -> beats logits j i = false).
  { intros j Hj.
    apply (filter_length_zero (fun j => beats logits j i) (seq 0 (length logits)) j).
    - change (Z.to_nat 1) with 1%nat in Hr. lia.
    - apply in_seq. lia. }
  destruct logits as [| x t]; [congruence |].
  unfold GreedySampler_call, argmax. f_equal.
  destruct (argmax_from_spec t [x] x 0%nat) as [Hg [Hmax Hfirst]].
  - simpl. lia.
  - reflexivity.
  - intros j Hj. simpl in Hj. assert (j = 0%nat) by lia. subst. simpl. lra.
  - intros j Hj. lia.
  - simpl length in *. simpl app in *.
    set (g := argmax_from x 0%nat 1%nat t) in *.
    destruct (Nat.lt_trichotomy i g) as [L | [L | L]]; [| exact L |]; exfalso.
    + specialize (Hfirst i L). specialize (Hb g Hg).
      unfold beats in Hb. apply orb_false_iff in Hb. destruct Hb as [Hb _].
      apply Qltb_false in Hb. lra.
    + specialize (Hmax i Hi). specialize (Hb g Hg).
      unfold beats in Hb. apply orb_false_iff in Hb. destruct Hb as [Hb1 Hb2].
      apply Qltb_false in Hb1.
      apply andb_false_iff in Hb2. destruct Hb2 as [Hb2 | Hb2].
      * apply Qeq_bool_neq in Hb2. apply Hb2. lra.
      * apply Nat.ltb_ge in Hb2. lia.
Qed.

(** X10. Each of the four cells under "# Test" ends with a character of the
    vocabulary, whatever the 27 logits, the order of the vocabulary and the
    random draw are: the sampler returns an index and the lookup in the
    vocabulary does not fail. *)
Theorem test_cells_return_a_token
    (exp : Q -> Q) (exp_pos : forall x, 0 < exp x) (tie : nat -> nat -> bool)
    (vocabulary : list ascii) (logits : list Q) (draw : nat) :
  Permutation vocabulary alphabet ->
  length logits = 27%nat ->
  (exists c, GreedySampler_test vocabulary logits = Ok c /\ In c alphabet) /\
  (exists c, TemperatureSampler_test exp vocabulary logits draw = Ok c /\
             In c alphabet) /\
  (exists c, TopKSampler_test exp tie vocabulary logits draw = Ok c /\
             In c alphabet) /\
  (exists c, TopPSampler_test exp tie vocabulary logits draw = Ok c /\
             In c alphabet).
Proof.
  intros Hperm Hlen.
  assert (Hne : logits <> []) by (intro E; rewrite E in Hlen; discriminate).
  assert (Hv : length vocabulary = 27%nat)
    by (rewrite (Permutation_length Hperm); reflexivity).
  assert (Hlook : forall i, (i < length logits)%nat ->
            exists c, list_index vocabulary i = Ok c /\ In c alphabet).
  { intros i Hi. unfold list_index.
    destruct (nth_error vocabulary i) as [c |] eqn:E.
    - exists c. split; [reflexivity |].
      apply (Permutation_in _ Hperm). apply (nth_error_In _ i). exact E.
    - apply nth_error_None in E. lia. }
  split; [| split; [| split]].
  - unfold GreedySampler_test.
    destruct logits as [| x t]; [congruence |].
    unfold GreedySampler_call, argmax, bind.
    apply Hlook.
    pose proof (argmax_from_bound t x 0%nat 1%nat ltac:(lia)). simpl. lia.
  - unfold TemperatureSampler_test, TemperatureSampler_init, bind.
    destruct (TemperatureSampler_call_total exp exp_pos
                {| temperature := 5 |} logits draw Hne) as [i Hi];
      [simpl; discriminate |].
    rewrite Hi. apply Hlook.
    apply (TemperatureSampler_call_Ok exp tie _ _ _ _ Hi).
  - unfold TopKSampler_test, TopKSampler_init, bind.
    destruct (TopKSampler_call_total exp exp_pos tie {| k := 3 |} logits draw)
      as [i Hi]; [simpl; lia |].
    rewrite Hi. apply Hlook.
    apply TopKSampler_call_Ok in Hi. destruct Hi as [_ Hi].
    apply firstn_In in Hi. apply (sorted_index_in_range tie) in Hi. exact Hi.
  - unfold TopPSampler_test, TopPSampler_init, bind.
    destruct (TopPSampler_call_total exp exp_pos tie {| p := 7 # 10 |} logits draw Hne)
      as [i Hi].
    rewrite Hi. apply Hlook.
    apply (TopPSampler_call_index exp tie _ _ _ _ Hi).
Qed.

(** ** GreedySampler on logits holding infinities and nan *)

Ltac tfloat_cases :=
  unfold tgt, TorchOrd_tfloat; intros;
  repeat match goal with
         | v : tfloat |- _ => destruct v
         end;
  try discriminate; try reflexivity;
  repeat match goal with
         | H : Qltb _ _ = true |- _ => apply Qltb_true in H
         | H : Qltb _ _ = false |- _ => apply Qltb_false in H
         end;
  try (apply Qltb_true; lra); try (apply Qltb_false; lra).

Lemma tgt_irrefl (x : tfloat) : tgt x x = false.
Proof. tfloat_cases. Qed.

(** [y <= b < x] gives [y <= x] and [x > y]. *)
Lemma tgt_below (x b y : tfloat) :
  tgt x b = true -> tgt y b = false -> tgt y x = false.
Proof. tfloat_cases. Qed.

Lemma tgt_above (x b y : tfloat) :
  tgt x b = true -> tgt y b = false -> tgt x y = true.
Proof. tfloat_cases. Qed.

Lemma tgt_above_NInf (x : tfloat) : x <> NInf -> tgt x NInf = true.
Proof. destruct x; intro H; try reflexivity. congruence. Qed.

Lemma argmax_from_extended (l pre : list tfloat) (best : tfloat) (bi : nat) :
  (bi < length pre)%nat ->
  nth bi pre (Fin 0) = best ->
  (forall j, (j < length pre)%nat -> tgt (nth j pre (Fin 0)) best = false) ->
  (forall j, (j < bi)%nat -> tgt best (nth j pre (Fin 0)) = true) ->
  let r := argmax_from best bi (length pre) l in
  (r < length (pre ++ l))%nat /\
  (forall j, (j < length (pre ++ l))%nat ->
             tgt (nth j (pre ++ l) (Fin 0)) (nth r (pre ++ l) (Fin 0)) = false) /\
  (forall j, (j < r)%nat ->
             tgt (nth r (pre ++ l) (Fin 0)) (nth j (pre ++ l) (Fin 0)) = true).
Proof.
  revert pre best bi. induction l as [| x t IH]; intros pre best bi Hbi Hbest Hmax Hfirst.
  - simpl. rewrite app_nil_r. rewrite Hbest. auto.
  - simpl.
    assert (Hlen : length (pre ++ [x]) = S (length pre))
      by (rewrite length_app; simpl; lia).
    replace (pre ++ x :: t) with ((pre ++ [x]) ++ t)
      by (rewrite <- app_assoc; reflexivity).
    rewrite <- Hlen.
    destruct (tgt x best) eqn:E.
    + apply (IH (pre ++ [x]) x (length pre)).
      * lia.
      * rewrite app_nth2 by lia. rewrite Nat.sub_diag. reflexivity.
      * intros j Hj. rewrite Hlen in Hj.
        destruct (Nat.eq_dec j (length pre)) as [-> | Hne].
        -- rewrite app_nth2 by lia. rewrite Nat.sub_diag. simpl. apply tgt_irrefl.
        -- rewrite app_nth1 by lia. apply (tgt_below x best); [exact E |].
           apply Hmax. lia.
      * intros j Hj. rewrite app_nth1 by lia.
        apply (tgt_above x best); [exact E |]. apply Hmax. exact Hj.
    + apply (IH (pre ++ [x]) best bi).
      * lia.
      * rewrite app_nth1 by lia. exact Hbest.
      * intros j Hj. rewrite Hlen in Hj.
        destruct (Nat.eq_dec j (length pre)) as [-> | Hne].
        -- rewrite app_nth2 by lia. rewrite Nat.sub_diag. simpl. exact E.
        -- rewrite app_nth1 by lia. apply Hmax. lia.
      * intros j Hj. rewrite app_nth1 by lia. apply Hfirst. exact Hj.
Qed.

(** X11. On a non-empty vector whose entries may be infinite or [nan],
    [GreedySampler] returns the lowest index among the entries that rank
    highest in the order torch uses ([-inf] below the numbers, [inf] above
    them, [nan] above all): no entry ranks above the one returned and every
    earlier entry ranks strictly below it.  So an entry [-inf], as used to
    mask a token, is returned only when every entry is [-inf]. *)
Theorem GreedySampler_extended_argmax (logits : list tfloat) :
  logits <> [] ->
  exists i,
    GreedySampler_call logits = Ok i /\
    (i < length logits)%nat /\
    (forall j, (j < length logits)%nat ->
               tgt (nth j logits (Fin 0)) (nth i logits (Fin 0)) = false) /\
    (forall j, (j < i)%nat ->
               tgt (nth i logits (Fin 0)) (nth j logits (Fin 0)) = true) /\
    (forall x, In x logits -> x <> NInf -> nth i logits (Fin 0) <> NInf).
Proof.
  destruct logits as [| x t]; [congruence | intros _].
  exists (argmax_from x 0%nat 1%nat t). split; [reflexivity |].
  destruct (argmax_from_extended t [x] x 0%nat) as [H1 [H2 H3]].
  - simpl. lia.
  - reflexivity.
  - intros j Hj. simpl in Hj. assert (j = 0%nat) by lia. subst. simpl.
    apply tgt_irrefl.
  - intros j Hj. lia.
  - simpl app in *. simpl length in *.
    split; [exact H1 |]. split; [exact H2 |]. split; [exact H3 |].
    intros y Hy Hny E.
    destruct (In_nth _ _ (Fin 0) Hy) as [j [Hj Hn]].
    specialize (H2 j Hj). rewrite Hn, E in H2.
    rewrite (tgt_above_NInf y Hny) in H2. discriminate.
Qed.

(** ** The further properties on concrete inputs *)

Lemma sampler_index_in_vocabulary_witness :
  GreedySampler_call [1; 3; 2; 0] = Ok 1%nat /\
  (1 < length [1; 3; 2; 0])%nat.
Proof.
  assert (H : GreedySampler_call [1; 3; 2; 0] = Ok 1%nat) by reflexivity.
  split; [exact H |].
  exact (sampler_index_in_vocabulary exp_approx tie_low
           {| temperature := 1 |} {| k := 1 |} {| p := 1 |}
           [1; 3; 2; 0] 0%nat 1%nat (or_introl H)).
Defined.

Lemma TopPSampler_candidates_grow_with_p_witness :
  1 # 10 <= 9 # 10 /\
  (exists draw,
     TopPSampler_call exp_approx tie_low {| p := 1 # 10 |} [1; 3; 2; 0] draw = Ok 1%nat) /\
  (exists draw,
     TopPSampler_call exp_approx tie_low {| p := 9 # 10 |} [1; 3; 2; 0] draw = Ok 1%nat).
Proof.
  assert (Hp : 1 # 10 <= 9 # 10) by discriminate.
  assert (H1 : exists draw,
             TopPSampler_call exp_approx tie_low {| p := 1 # 10 |} [1; 3; 2; 0] draw
             = Ok 1%nat) by (exists 0%nat; reflexivity).
  split; [exact Hp |]. split; [exact H1 |].
  exact (TopPSampler_candidates_grow_with_p exp_approx exp_approx_pos tie_low
           {| p := 1 # 10 |} {| p := 9 # 10 |} [1; 3; 2; 0] 1%nat Hp H1).
Defined.


Lemma TopKSampler_one_stable_is_greedy_witness :
  k {| k := 1 |} = 1%Z /\
  [1; 3; 2; 3] <> [] /\
  TopKSampler_call exp_approx tie_low {| k := 1 |} [1; 3; 2; 3] 5
  = GreedySampler_call [1; 3; 2; 3].
Proof.
  assert (Hk : k {| k := 1 |} = 1%Z) by reflexivity.
  assert (Hne : [1; 3; 2; 3] <> []) by discriminate.
  split; [exact Hk |]. split; [exact Hne |].
  exact (TopKSampler_one_stable_is_greedy exp_approx exp_approx_pos
           {| k := 1 |} [1; 3; 2; 3] 5%nat Hk Hne).
Defined.

Lemma test_cells_return_a_token_witness :
  let logits := map (fun n => inject_Z (Z.of_nat n)) (seq 0 27) in
  Permutation alphabet alphabet /\
  length logits = 27%nat /\
  (exists c, GreedySampler_test alphabet logits = Ok c /\ In c alphabet) /\
  (exists c, TemperatureSampler_test exp_approx alphabet logits 3 = Ok c /\
             In c alphabet) /\
  (exists c, TopKSampler_test exp_approx tie_low alphabet logits 3 = Ok c /\
             In c alphabet) /\
  (exists c, TopPSampler_test exp_approx tie_low alphabet logits 3 = Ok c /\
             In c alphabet).
Proof.
  intro logits.
  assert (Hperm : Permutation alphabet alphabet) by apply Permutation_refl.
  assert (Hlen : length logits = 27%nat) by reflexivity.
  split; [exact Hperm |]. split; [exact Hlen |].
  exact (test_cells_return_a_token exp_approx exp_approx_pos tie_low
           alphabet logits 3%nat Hperm Hlen).
Defined.

Lemma GreedySampler_extended_argmax_witness :
  [NInf; Fin 1; NInf] <> [] /\
  exists i,
    GreedySampler_call [NInf; Fin 1; NInf] = Ok i /\
    (i < length [NInf; Fin 1; NInf])%nat /\
    (forall j, (j < length [NInf; Fin 1; NInf])%nat ->
               tgt (nth j [NInf; Fin 1; NInf] (Fin 0))
                   (nth i [NInf; Fin 1; NInf] (Fin 0)) = false) /\
    (forall j, (j < i)%nat ->
               tgt (nth i [NInf; Fin 1; NInf] (Fin 0))
                   (nth j [NInf; Fin 1; NInf] (Fin 0)) = true) /\
    (forall x, In x [NInf; Fin 1; NInf] -> x <> NInf ->
               nth i [NInf; Fin 1; NInf] (Fin 0) <> NInf).
Proof.
  assert (Hne : [NInf; Fin 1; NInf] <> []) by discriminate.
  split; [exact Hne |].
  exact (GreedySampler_extended_argmax [NInf; Fin 1; NInf] Hne).
Defined.

Lemma TopKSampler_k_below_one_witness :
  (k {| k := 0 |} < 1)%Z /\
  TopKSampler_call exp_approx tie_low {| k := 0 |} [1; 3; 2; 0] 0
  = Raise RuntimeError_no_category.
Proof.
  assert (H : (k {| k := 0 |} < 1)%Z) by reflexivity.
  split; [exact H |].
  exact (TopKSampler_k_below_one exp_approx tie_low {| k := 0 |} [1; 3; 2; 0] 0%nat H).
Defined.

(** ** TopPSampler over the kernels of torch: what holds however they round *)

Lemma sorted_head_largest (l : list Q) (v : Q) :
  StronglySorted (fun a b => b <= a) l -> In v l -> v <= nth 0 l 0.
Proof.
  intros H Hv. destruct l as [| a t]; [destruct Hv |]. simpl.
  inversion H as [| a' t' Ht Ha]; subst.
  destruct Hv as [<- | Hv]; [lra |].
  rewrite Forall_forall in Ha. apply Ha. exact Hv.
Qed.

Lemma zero_from_In (n : nat) (x : list Q) (v : Q) :
  In v (zero_from n x) -> v = 0 \/ In v x.
Proof.
  unfold zero_from. intro H. apply in_app_or in H. destruct H as [H | H].
  - right. rewrite <- (firstn_skipn n x). apply in_or_app. left. exact H.
  - left. apply repeat_spec in H. exact H.
Qed.

Lemma zero_from_all (n : nat) (x : list Q) :
  (length x <= n)%nat -> zero_from n x = x.
Proof.
  intro H. unfold zero_from. rewrite firstn_all2 by lia.
  replace (length x - n)%nat with 0%nat by lia. simpl. apply app_nil_r.
Qed.

Lemma nth_map_kernel (g : Q -> Q) (f : list Q) (j : nat) :
  (j < length f)%nat -> nth j (map g f) 0 = g (nth j f 0).
Proof.
  intro H. rewrite (nth_indep _ 0 (g 0)) by (rewrite length_map; exact H).
  apply (map_nth g).
Qed.

Lemma firstn_In_list {A : Type} (n : nat) (l : list A) (a : A) :
  In a (firstn n l) -> In a l.
Proof.
  intro H. rewrite <- (firstn_skipn n l). apply in_or_app. left. exact H.
Qed.

Section KernelProofs.

Variable softmax_k : list Q -> list Q.
Variable cumsum_k : list Q -> list Q.
Variable sum_k : list Q -> Q.
Variable div_k : Q -> Q -> Q.
Variable scalar_k : Q -> Q.
Variable tie : nat -> nat -> bool.

Hypothesis kernels : kernels_ok softmax_k cumsum_k sum_k div_k.

Local Abbreviation sorted_probs := (TopP_sorted_probs_k softmax_k tie).
Local Abbreviation sorted_indices := (TopP_sorted_indices_k softmax_k tie).
Local Abbreviation cumulative_probs := (TopP_cumulative_probs_k softmax_k cumsum_k tie).
Local Abbreviation cutoff_index := (TopP_cutoff_index_k softmax_k cumsum_k scalar_k tie).
Local Abbreviation masked_probs := (TopP_masked_probs_k softmax_k cumsum_k scalar_k tie).
Local Abbreviation filtered_probs :=
  (TopP_filtered_probs_k softmax_k cumsum_k sum_k div_k scalar_k tie).
Local Abbreviation call := (TopPSampler_call_k softmax_k cumsum_k sum_k div_k scalar_k tie).

Lemma TopP_filtered_k_eq (self : TopPSampler) (logits : list Q) :
  filtered_probs self logits =
  map (fun v => div_k v (sum_k (masked_probs self logits))) (masked_probs self logits).
Proof. reflexivity. Qed.

Lemma TopPSampler_call_k_eq (self : TopPSampler) (logits : list Q) (draw : nat) :
  call self logits draw =
  (j <- multinomial (filtered_probs self logits) draw ;;
   tensor_index (sorted_indices logits) j).
Proof. reflexivity. Qed.

Lemma TopP_sorted_k_length (logits : list Q) :
  length (sorted_probs logits) = length logits /\
  length (sorted_indices logits) = length logits.
Proof.
  unfold TopP_sorted_probs_k, TopP_sorted_indices_k.
  destruct (sort_desc_length tie (softmax_k logits)) as [H1 H2].
  rewrite H1, H2, (softmax_k_length _ _ _ _ kernels). auto.
Qed.

Lemma TopP_sorted_k_range (logits : list Q) (v : Q) :
  In v (sorted_probs logits) -> 0 <= v <= 1.
Proof.
  intro H. apply (softmax_k_range _ _ _ _ kernels logits).
  apply (Permutation_in _ (sort_desc_values_perm tie (softmax_k logits))). exact H.
Qed.

Lemma TopP_sorted_k_head (logits : list Q) (v : Q) :
  In v (sorted_probs logits) -> v <= nth 0 (sorted_probs logits) 0.
Proof.
  apply sorted_head_largest. apply sort_desc_values_sorted.
Qed.

(** The largest probability is positive. *)
Lemma TopP_sorted_k_top (logits : list Q) :
  logits <> [] -> 0 < nth 0 (sorted_probs logits) 0.
Proof.
  intro Hne. destruct (softmax_k_positive _ _ _ _ kernels logits Hne) as [v [Hv Hp]].
  assert (Hin : In v (sorted_probs logits)).
  { apply (Permutation_in _ (Permutation_sym (sort_desc_values_perm tie (softmax_k logits)))).
    exact Hv. }
  pose proof (TopP_sorted_k_head logits v Hin). lra.
Qed.

Lemma TopP_masked_k_length (self : TopPSampler) (logits : list Q) :
  length (masked_probs self logits) = length logits.
Proof.
  unfold TopP_masked_probs_k. rewrite zero_from_length. apply TopP_sorted_k_length.
Qed.

Lemma TopP_masked_k_bounds (self : TopPSampler) (logits : list Q) (v : Q) :
  logits <> [] ->
  In v (masked_probs self logits) -> 0 <= v <= 1 /\ v <= nth 0 (sorted_probs logits) 0.
Proof.
  intros Hne H. pose proof (TopP_sorted_k_top logits Hne) as Ht.
  apply zero_from_In in H. destruct H as [-> | H].
  - split; [split |]; lra.
  - split; [apply (TopP_sorted_k_range logits); exact H
           | apply TopP_sorted_k_head; exact H].
Qed.

Lemma TopP_masked_k_top (self : TopPSampler) (logits : list Q) :
  nth 0 (masked_probs self logits) 0 = nth 0 (sorted_probs logits) 0.
Proof.
  unfold TopP_masked_probs_k. apply zero_from_nth_kept. lia.
Qed.

Lemma TopP_masked_k_top_In (self : TopPSampler) (logits : list Q) :
  logits <> [] -> In (nth 0 (sorted_probs logits) 0) (masked_probs self logits).
Proof.
  intro Hne. rewrite <- (TopP_masked_k_top self). apply nth_In.
  rewrite TopP_masked_k_length. destruct logits; [congruence | simpl; lia].
Qed.

(** What the mask leaves is a vector of weights. *)
Lemma TopP_masked_k_weights (self : TopPSampler) (logits : list Q) :
  logits <> [] -> (Z.of_nat (length logits) <= 2 ^ 24)%Z ->
  weights (masked_probs self logits).
Proof.
  intros Hne Hv. split; [rewrite TopP_masked_k_length; exact Hv |]. split.
  - intros v Hin. apply (TopP_masked_k_bounds self logits v Hne Hin).
  - exists (nth 0 (sorted_probs logits) 0). split.
    + apply TopP_masked_k_top_In. exact Hne.
    + apply TopP_sorted_k_top. exact Hne.
Qed.

Lemma TopP_filtered_k_length (self : TopPSampler) (logits : list Q) :
  length (filtered_probs self logits) = length logits.
Proof.
  rewrite TopP_filtered_k_eq, length_map. apply TopP_masked_k_length.
Qed.

Lemma TopP_filtered_k_nth (self : TopPSampler) (logits : list Q) (j : nat) :
  (j < length logits)%nat ->
  nth j (filtered_probs self logits) 0 =
  div_k (nth j (masked_probs self logits) 0) (sum_k (masked_probs self logits)).
Proof.
  intro Hj. rewrite TopP_filtered_k_eq.
  apply (nth_map_kernel (fun v => div_k v (sum_k (masked_probs self logits)))).
  rewrite TopP_masked_k_length. exact Hj.
Qed.

(** Positions after [cutoff_index] have weight zero. *)
Lemma TopP_filtered_k_masked (self : TopPSampler) (logits : list Q) (j : nat) :
  logits <> [] -> (Z.of_nat (length logits) <= 2 ^ 24)%Z ->
  (cutoff_index self logits < j)%nat -> nth j (filtered_probs self logits) 0 == 0.
Proof.
  intros Hne Hv Hc. destruct (Nat.lt_ge_cases j (length logits)) as [Hj | Hj].
  - rewrite TopP_filtered_k_nth by exact Hj.
    unfold TopP_masked_probs_k at 1. rewrite zero_from_nth_masked by lia.
    apply (normalise_zero _ _ _ _ kernels). apply TopP_masked_k_weights; assumption.
  - rewrite nth_overflow by (rewrite TopP_filtered_k_length; lia). reflexivity.
Qed.

Lemma TopP_filtered_k_nonneg (self : TopPSampler) (logits : list Q) (v : Q) :
  logits <> [] -> (Z.of_nat (length logits) <= 2 ^ 24)%Z ->
  In v (filtered_probs self logits) -> 0 <= v.
Proof.
  intros Hne Hv H. rewrite TopP_filtered_k_eq in H.
  apply in_map_iff in H. destruct H as [a [<- Ha]].
  apply (normalise_nonneg _ _ _ _ kernels); [| exact Ha].
  apply TopP_masked_k_weights; assumption.
Qed.

(** The top-ranked token keeps a positive weight. *)
Lemma TopP_filtered_k_top (self : TopPSampler) (logits : list Q) :
  logits <> [] -> (Z.of_nat (length logits) <= 2 ^ 24)%Z ->
  0 < nth 0 (filtered_probs self logits) 0.
Proof.
  intros Hne Hv.
  rewrite TopP_filtered_k_nth by (destruct logits; [congruence | simpl; lia]).
  rewrite TopP_masked_k_top.
  apply (normalise_largest _ _ _ _ kernels).
  - apply TopP_masked_k_weights; assumption.
  - apply TopP_masked_k_top_In. exact Hne.
  - apply TopP_sorted_k_top. exact Hne.
  - intros v Hin. apply (TopP_masked_k_bounds self logits v Hne Hin).
Qed.

Lemma TopP_filtered_k_mass (self : TopPSampler) (logits : list Q) :
  logits <> [] -> (Z.of_nat (length logits) <= 2 ^ 24)%Z ->
  0 < tsum (filtered_probs self logits).
Proof.
  intros Hne Hv. pose proof (TopP_filtered_k_top self logits Hne Hv) as Ht.
  pose proof (tsum_ge_nth (filtered_probs self logits) 0) as Hge.
  rewrite TopP_filtered_k_length in Hge.
  assert (0 < length logits)%nat by (destruct logits; [congruence | simpl; lia]).
  specialize (Hge (fun v => TopP_filtered_k_nonneg self logits v Hne Hv) ltac:(lia)).
  lra.
Qed.


(** On a non-empty vector the call returns an index. *)
Lemma TopPSampler_call_k_total (self : TopPSampler) (logits : list Q) (draw : nat) :
  logits <> [] -> (Z.of_nat (length logits) <= 2 ^ 24)%Z ->
  exists i, call self logits draw = Ok i.
Proof.
  intros Hne Hv. rewrite TopPSampler_call_k_eq.
  destruct (multinomial_total (filtered_probs self logits) draw) as [j Hj].
  - intro E. apply (f_equal (@length Q)) in E.
    rewrite TopP_filtered_k_length in E. destruct logits; [congruence | discriminate].
  - intros v Hin. apply (TopP_filtered_k_nonneg self logits); assumption.
  - apply TopP_filtered_k_mass; assumption.
  - rewrite Hj. simpl. unfold tensor_index.
    apply (multinomial_Ok tie) in Hj. destruct Hj as [Hl _].
    rewrite TopP_filtered_k_length in Hl.
    destruct (nth_error (sorted_indices logits) j) as [v |] eqn:En.
    + exists v. reflexivity.
    + apply nth_error_None in En.
      destruct (TopP_sorted_k_length logits) as [_ H2]. lia.
Qed.


Lemma TopP_cutoff_k_contract (self : TopPSampler) (logits : list Q) :
  (cutoff_index self logits <= length logits)%nat /\
  (forall m, (m < cutoff_index self logits)%nat ->
             nth m (cumulative_probs logits) 0 < scalar_k (p self)) /\
  ((cutoff_index self logits < length logits)%nat ->
   scalar_k (p self) <= nth (cutoff_index self logits) (cumulative_probs logits) 0).
Proof.
  pose proof (searchsorted_contract (cumulative_probs logits) (scalar_k (p self))) as H.
  cbv zeta in H.
  assert (Hl : length (cumulative_probs logits) = length logits).
  { unfold TopP_cumulative_probs_k. rewrite (cumsum_k_length _ _ _ _ kernels).
    apply TopP_sorted_k_length. }
  rewrite Hl in H. exact H.
Qed.



(** C6, as the code has it.  Under the same conditions on the kernels and
    the logits, the candidate set is never empty: the
    top-ranked token keeps a positive weight and the call returns a token
    for every draw.  Nothing is masked when no cumulative sum before the
    last one reaches [p]; when none reaches [p] at all, [cutoff_index] is
    the length of the vocabulary and the final token is kept with the
    others.  When a cumulative sum before the last one reaches [p], be it
    for [p = 1], the positions after it are masked. *)
Theorem TopPSampler_mask_leaves_candidates (self : TopPSampler) (logits : list Q) :
  logits <> [] -> (Z.of_nat (length logits) <= 2 ^ 24)%Z ->
  let cumulative := cumulative_probs logits in
  let threshold := scalar_k (p self) in
  let cutoff := cutoff_index self logits in
  0 < nth 0 (filtered_probs self logits) 0 /\
  (forall draw, exists i, call self logits draw = Ok i) /\
  ((forall m, (m + 1 < length logits)%nat -> nth m cumulative 0 < threshold) ->
   masked_probs self logits = sorted_probs logits) /\
  ((forall m, (m < length logits)%nat -> nth m cumulative 0 < threshold) ->
   cutoff = length logits /\ masked_probs self logits = sorted_probs logits) /\
  (forall m j, (m < j < length logits)%nat -> threshold <= nth m cumulative 0 ->
               nth j (masked_probs self logits) 0 = 0 /\
               nth j (filtered_probs self logits) 0 == 0).
Proof.
  intros Hne Hv. cbv zeta.
  destruct (TopP_cutoff_k_contract self logits) as [H1 [H2 H3]].
  destruct (TopP_sorted_k_length logits) as [Hl _].
  split; [apply TopP_filtered_k_top; assumption |].
  split; [intro draw; apply TopPSampler_call_k_total; assumption |].
  assert (Hlast : (forall m, (m + 1 < length logits)%nat ->
                     nth m (cumulative_probs logits) 0 < scalar_k (p self)) ->
                  masked_probs self logits = sorted_probs logits).
  { intro Hb. unfold TopP_masked_probs_k. apply zero_from_all. rewrite Hl.
    destruct (Nat.le_gt_cases (length logits) (cutoff_index self logits + 1)) as [L | L];
      [exact L |].
    exfalso. specialize (Hb _ L). specialize (H3 ltac:(lia)). lra. }
  split; [exact Hlast |]. split.
  - intro Hb. split; [| apply Hlast; intros m Hm; apply Hb; lia].
    destruct (Nat.eq_dec (cutoff_index self logits) (length logits)) as [E | E];
      [exact E |].
    exfalso. assert (L : (cutoff_index self logits < length logits)%nat) by lia.
    specialize (Hb _ L). specialize (H3 L). lra.
  - intros m j Hj Hm.
    assert (Hc : (cutoff_index self logits <= m)%nat).
    { destruct (Nat.le_gt_cases (cutoff_index self logits) m) as [L | L]; [exact L |].
      exfalso. specialize (H2 _ L). lra. }
    split.
    + unfold TopP_masked_probs_k. apply zero_from_nth_masked. lia.
    + apply TopP_filtered_k_masked; [assumption | assumption | lia].
Qed.

End KernelProofs.

(** ** Rounding to nearest, ties to even *)

Lemma round_half_even_spec (n d : Z) :
  (0 < d)%Z ->
  (2 * n - d <= 2 * round_half_even n d * d <= 2 * n + d)%Z.
Proof.
  intro Hd. unfold round_half_even.
  pose proof (Z.div_mod n d ltac:(lia)) as E.
  pose proof (Z.mod_pos_bound n d Hd) as Hm.
  destruct (Z.compare_spec (2 * (n mod d)) d) as [C | C | C];
    [destruct (Z.even (n / d)) | |]; nia.
Qed.

Lemma round_half_even_exact (x d : Z) : (0 < d)%Z -> round_half_even (x * d) d = x.
Proof.
  intro Hd. unfold round_half_even.
  rewrite Z.div_mul by lia. rewrite Z.mod_mul by lia.
  destruct (Z.compare_spec (2 * 0) d) as [C | C | C];
    [exfalso; lia | reflexivity | exfalso; lia].
Qed.

Lemma round_half_even_mono (n1 d1 n2 d2 : Z) :
  (0 < d1)%Z -> (0 < d2)%Z -> (n1 * d2 <= n2 * d1)%Z ->
  (round_half_even n1 d1 <= round_half_even n2 d2)%Z.
Proof.
  intros H1 H2 H.
  pose proof (Z.div_mod n1 d1 ltac:(lia)) as E1.
  pose proof (Z.mod_pos_bound n1 d1 H1) as Hm1.
  pose proof (Z.div_mod n2 d2 ltac:(lia)) as E2.
  pose proof (Z.mod_pos_bound n2 d2 H2) as Hm2.
  assert (Hq : (n1 / d1 <= n2 / d2)%Z).
  { apply Z.div_le_lower_bound; [exact H2 |]. nia. }
  unfold round_half_even.
  set (q1 := (n1 / d1)%Z) in *. set (m1 := (n1 mod d1)%Z) in *.
  set (q2 := (n2 / d2)%Z) in *. set (m2 := (n2 mod d2)%Z) in *.
  destruct (Z.eq_dec q1 q2) as [Eq | Nq].
  - assert (Hm : (m1 * d2 <= m2 * d1)%Z) by nia.
    destruct (Z.compare_spec (2 * m1) d1) as [Sc1 | Sc1 | Sc1];
      destruct (Z.compare_spec (2 * m2) d2) as [Sc2 | Sc2 | Sc2];
      rewrite <- ?Eq; try (destruct (Z.even q1)); try lia; exfalso; nia.
  - destruct (2 * m1 ?= d1)%Z; destruct (2 * m2 ?= d2)%Z;
      try (destruct (Z.even q1)); try (destruct (Z.even q2)); lia.
Qed.

(** Powers of two as rationals. *)
Lemma pow2_pos (z : Z) : 0 < 2 ^ z.
Proof. apply Qpower_0_lt. lra. Qed.

Lemma pow2_add (a b : Z) : 2 ^ (a + b) == 2 ^ a * 2 ^ b.
Proof. apply Qpower_plus. lra. Qed.

Lemma pow2_inject (n : Z) : (0 <= n)%Z -> inject_Z (2 ^ n) == 2 ^ n.
Proof. intro H. apply (Zpower_Qpower 2 n H). Qed.

Lemma pow2_le (a b : Z) : (a <= b)%Z -> 2 ^ a <= 2 ^ b.
Proof. intro H. apply Qpower_le_compat_l; [exact H | lra]. Qed.

Lemma pow2_lt_inv (a b : Z) : 2 ^ a < 2 ^ b -> (a < b)%Z.
Proof. intro H. apply (Qpower_lt_compat_l_inv 2); [exact H | lra]. Qed.

Lemma pow2_succ (a : Z) : 2 ^ (a + 1) == 2 * 2 ^ a.
Proof. rewrite pow2_add. change (2 ^ 1) with 2. ring. Qed.

Lemma inject_Z_pos (z : Z) : (0 < z)%Z -> 0 < inject_Z z.
Proof. intro H. unfold Qlt. simpl. lia. Qed.

(** The fraction [scale2 k n d] is [n / d] times [2^k]. *)
Lemma scale2_value (k n d : Z) :
  (0 < d)%Z ->
  (0 < snd (scale2 k n d))%Z /\
  inject_Z (fst (scale2 k n d)) == inject_Z n / inject_Z d * 2 ^ k * inject_Z (snd (scale2 k n d)).
Proof.
  intro Hd. unfold scale2. simpl.
  assert (Ha : (0 <= Z.max k 0)%Z) by lia.
  assert (Hb : (0 <= Z.max (- k) 0)%Z) by lia.
  split; [apply Z.mul_pos_pos; [exact Hd | apply Z.pow_pos_nonneg; lia] |].
  rewrite !inject_Z_mult, !pow2_inject by lia.
  assert (E : 2 ^ Z.max k 0 == 2 ^ k * 2 ^ Z.max (- k) 0).
  { rewrite <- pow2_add. replace (k + Z.max (- k) 0)%Z with (Z.max k 0) by lia. reflexivity. }
  rewrite E. pose proof (inject_Z_pos d Hd). field. lra.
Qed.

Lemma scale2_cmp (k n d A : Z) :
  (0 < d)%Z ->
  ((A * snd (scale2 k n d) <= fst (scale2 k n d))%Z <->
   inject_Z A * inject_Z d <= inject_Z n * 2 ^ k) /\
  ((fst (scale2 k n d) < A * snd (scale2 k n d))%Z <->
   inject_Z n * 2 ^ k < inject_Z A * inject_Z d).
Proof.
  intro Hd. unfold scale2. simpl.
  assert (Ha : (0 <= Z.max k 0)%Z) by lia.
  assert (Hb : (0 <= Z.max (- k) 0)%Z) by lia.
  assert (E : 2 ^ Z.max k 0 == 2 ^ k * 2 ^ Z.max (- k) 0).
  { rewrite <- pow2_add. replace (k + Z.max (- k) 0)%Z with (Z.max k 0) by lia. reflexivity. }
  pose proof (pow2_pos (Z.max (- k) 0)) as Hp.
  rewrite Zle_Qle, Zlt_Qlt, !inject_Z_mult, !pow2_inject by lia.
  assert (Ex : inject_Z A * (inject_Z d * 2 ^ Z.max (- k) 0)
               == inject_Z A * inject_Z d * 2 ^ Z.max (- k) 0) by ring.
  assert (Ey : inject_Z n * 2 ^ Z.max k 0 == inject_Z n * 2 ^ k * 2 ^ Z.max (- k) 0)
    by (rewrite E; ring).
  rewrite Ex, Ey. split.
  - apply Qmult_le_r. exact Hp.
  - apply Qmult_lt_r. exact Hp.
Qed.

Lemma log2_bounds (n : Z) :
  (0 < n)%Z -> 2 ^ Z.log2 n <= inject_Z n /\ inject_Z n < 2 * 2 ^ Z.log2 n.
Proof.
  intro Hn. destruct (Z.log2_spec n Hn) as [H1 H2].
  pose proof (Z.log2_nonneg n) as H0.
  rewrite Zle_Qle, pow2_inject in H1 by lia.
  rewrite Zlt_Qlt, pow2_inject in H2 by lia.
  replace (Z.succ (Z.log2 n)) with (Z.log2 n + 1)%Z in H2 by lia.
  rewrite pow2_succ in H2. split; assumption.
Qed.

(** [binade n d] is the exponent of the binade [n / d] lies in. *)
Lemma binade_spec (n d : Z) :
  (0 < n)%Z -> (0 < d)%Z ->
  inject_Z d <= inject_Z n * 2 ^ (- binade n d) /\
  inject_Z n * 2 ^ (- binade n d) < 2 * inject_Z d.
Proof.
  intros Hn Hd.
  destruct (log2_bounds n Hn) as [Hn1 Hn2].
  destruct (log2_bounds d Hd) as [Hd1 Hd2].
  unfold binade. set (e0 := (Z.log2 n - Z.log2 d)%Z).
  destruct (scale2_cmp (- e0) n d 1 Hd) as [Sc1 Sc2].
  destruct (scale2 (- e0) n d) as [N D]. cbn [fst snd] in Sc1, Sc2.
  change (inject_Z 1) with 1 in Sc1, Sc2.
  assert (E : 2 ^ Z.log2 n * 2 ^ (- e0) == 2 ^ Z.log2 d).
  { rewrite <- pow2_add. replace (Z.log2 n + - e0)%Z with (Z.log2 d) by lia. reflexivity. }
  pose proof (pow2_pos (- e0)) as Hu.
  assert (L : 2 ^ Z.log2 n * 2 ^ (- e0) <= inject_Z n * 2 ^ (- e0))
    by (apply Qmult_le_compat_r; [exact Hn1 | lra]).
  assert (U : inject_Z n * 2 ^ (- e0) < 2 * 2 ^ Z.log2 n * 2 ^ (- e0))
    by (apply Qmult_lt_compat_r; [exact Hu | exact Hn2]).
  destruct (D <=? N)%Z eqn:T.
  - apply Z.leb_le in T. rewrite Z.mul_1_l in Sc1. apply Sc1 in T. lra.
  - apply Z.leb_gt in T. rewrite Z.mul_1_l in Sc2. apply Sc2 in T.
    replace (- (e0 - 1))%Z with (- e0 + 1)%Z by lia. rewrite pow2_succ. lra.
Qed.

(** The scaled fraction that [round_pos] rounds has [prec] bits before the
    point. *)
Lemma scaled_bounds (prec n d : Z) :
  (1 <= prec)%Z -> (0 < n)%Z -> (0 < d)%Z ->
  let k := (prec - 1 - binade n d)%Z in
  2 ^ (prec - 1) * inject_Z d <= inject_Z n * 2 ^ k /\
  inject_Z n * 2 ^ k < 2 ^ prec * inject_Z d.
Proof.
  intros Hp Hn Hd k. destruct (binade_spec n d Hn Hd) as [B1 B2].
  assert (E : 2 ^ k == 2 ^ (prec - 1) * 2 ^ (- binade n d)).
  { rewrite <- pow2_add. unfold k.
    replace (prec - 1 + - binade n d)%Z with (prec - 1 - binade n d)%Z by lia. reflexivity. }
  assert (E2 : 2 ^ prec == 2 * 2 ^ (prec - 1)).
  { rewrite <- pow2_succ. replace (prec - 1 + 1)%Z with prec by lia. reflexivity. }
  pose proof (pow2_pos (prec - 1)) as Hc.
  set (t := inject_Z n * 2 ^ (- binade n d)) in *.
  assert (Et : inject_Z n * 2 ^ k == 2 ^ (prec - 1) * t) by (rewrite E; unfold t; ring).
  rewrite Et, E2. split.
  - apply Qmult_le_l; assumption.
  - setoid_replace (2 * 2 ^ (prec - 1) * inject_Z d)
      with (2 ^ (prec - 1) * (2 * inject_Z d)) by ring.
    apply Qmult_lt_l; assumption.
Qed.

(** [round_pos] is a significand of [prec] bits times a power of two. *)
Lemma round_pos_significand (prec n d : Z) :
  (1 <= prec)%Z -> (0 < n)%Z -> (0 < d)%Z ->
  let k := (prec - 1 - binade n d)%Z in
  let M := round_half_even (fst (scale2 k n d)) (snd (scale2 k n d)) in
  round_pos prec n d = inject_Z M * 2 ^ (- k) /\ (2 ^ (prec - 1) <= M <= 2 ^ prec)%Z.
Proof.
  intros Hp Hn Hd k M.
  destruct (scaled_bounds prec n d Hp Hn Hd) as [S1 S2]. fold k in S1, S2.
  destruct (scale2_cmp k n d (2 ^ (prec - 1)) Hd) as [Sc1 _].
  destruct (scale2_cmp k n d (2 ^ prec) Hd) as [_ Sc2].
  rewrite pow2_inject in Sc1, Sc2 by lia.
  apply Sc1 in S1. apply Sc2 in S2.
  assert (HD : (0 < snd (scale2 k n d))%Z).
  { unfold scale2. simpl. apply Z.mul_pos_pos; [exact Hd | apply Z.pow_pos_nonneg; lia]. }
  split.
  - unfold round_pos. fold k. unfold M. destruct (scale2 k n d). reflexivity.
  - unfold M. split.
    + pose proof (round_half_even_exact (2 ^ (prec - 1)) 1 ltac:(lia)) as X.
      rewrite <- X at 1. apply round_half_even_mono; lia.
    + pose proof (round_half_even_exact (2 ^ prec) 1 ltac:(lia)) as X.
      rewrite <- X. apply round_half_even_mono; lia.
Qed.

Lemma round_pos_bounds (prec n d : Z) :
  (1 <= prec)%Z -> (0 < n)%Z -> (0 < d)%Z ->
  2 ^ binade n d <= round_pos prec n d <= 2 ^ (binade n d + 1).
Proof.
  intros Hp Hn Hd.
  destruct (round_pos_significand prec n d Hp Hn Hd) as [-> [M1 M2]].
  set (k := (prec - 1 - binade n d)%Z) in *.
  set (M := round_half_even (fst (scale2 k n d)) (snd (scale2 k n d))) in *.
  rewrite Zle_Qle, pow2_inject in M1, M2 by lia.
  pose proof (pow2_pos (- k)) as Hu.
  assert (E1 : 2 ^ binade n d == 2 ^ (prec - 1) * 2 ^ (- k)).
  { rewrite <- pow2_add. replace (prec - 1 + - k)%Z with (binade n d) by lia. reflexivity. }
  assert (E2 : 2 ^ (binade n d + 1) == 2 ^ prec * 2 ^ (- k)).
  { rewrite <- pow2_add. replace (prec + - k)%Z with (binade n d + 1)%Z by lia. reflexivity. }
  rewrite E1, E2. split; apply Qmult_le_compat_r; lra.
Qed.

(** Rounding keeps the order of positive fractions. *)
Lemma round_pos_mono (prec n1 d1 n2 d2 : Z) :
  (1 <= prec)%Z -> (0 < n1)%Z -> (0 < d1)%Z -> (0 < n2)%Z -> (0 < d2)%Z ->
  (n1 * d2 <= n2 * d1)%Z -> round_pos prec n1 d1 <= round_pos prec n2 d2.
Proof.
  intros Hp Hn1 Hd1 Hn2 Hd2 H.
  destruct (binade_spec n1 d1 Hn1 Hd1) as [A1 _].
  destruct (binade_spec n2 d2 Hn2 Hd2) as [_ A2].
  pose proof (inject_Z_pos _ Hd1) as Pd1. pose proof (inject_Z_pos _ Hd2) as Pd2.
  pose proof (inject_Z_pos _ Hn1) as Pn1. pose proof (inject_Z_pos _ Hn2) as Pn2.
  assert (HQ : inject_Z n1 * inject_Z d2 <= inject_Z n2 * inject_Z d1)
    by (rewrite <- !inject_Z_mult, <- Zle_Qle; exact H).
  set (e1 := binade n1 d1) in *. set (e2 := binade n2 d2) in *.
  assert (He : (e1 <= e2)%Z).
  { destruct (Z.le_gt_cases e1 e2) as [L | L]; [exact L | exfalso].
    assert (Hpw : 2 * 2 ^ (- e1) <= 2 ^ (- e2)).
    { rewrite <- pow2_succ. apply pow2_le. lia. }
    pose proof (pow2_pos (- e1)) as U1. pose proof (pow2_pos (- e2)) as U2.
    (* d1 <= n1 u1, n2 u2 < 2 d2, 2 u1 <= u2, n1 d2 <= n2 d1 *)
    assert (X1 : inject_Z d1 * inject_Z d2 * 2 <= inject_Z n1 * inject_Z d2 * (2 * 2 ^ (- e1))).
    { setoid_replace (inject_Z n1 * inject_Z d2 * (2 * 2 ^ (- e1)))
        with (inject_Z n1 * 2 ^ (- e1) * inject_Z d2 * 2) by ring.
      apply Qmult_le_compat_r; [| lra]. apply Qmult_le_compat_r; lra. }
    assert (X2 : inject_Z n1 * inject_Z d2 * (2 * 2 ^ (- e1))
                 <= inject_Z n2 * inject_Z d1 * 2 ^ (- e2)).
    { apply Qle_trans with (inject_Z n1 * inject_Z d2 * 2 ^ (- e2)).
      - apply Qmult_le_l; [apply Qmult_lt_0_compat; assumption | exact Hpw].
      - apply Qmult_le_compat_r; lra. }
    assert (X3 : inject_Z n2 * inject_Z d1 * 2 ^ (- e2) < inject_Z d1 * inject_Z d2 * 2).
    { setoid_replace (inject_Z n2 * inject_Z d1 * 2 ^ (- e2))
        with (inject_Z d1 * (inject_Z n2 * 2 ^ (- e2))) by ring.
      setoid_replace (inject_Z d1 * inject_Z d2 * 2)
        with (inject_Z d1 * (2 * inject_Z d2)) by ring.
      apply Qmult_lt_l; assumption. }
    lra. }
  destruct (Z.eq_dec e1 e2) as [E | N].
  - destruct (round_pos_significand prec n1 d1 Hp Hn1 Hd1) as [-> _].
    destruct (round_pos_significand prec n2 d2 Hp Hn2 Hd2) as [-> _].
    fold e1 e2. rewrite <- E. set (k := (prec - 1 - e1)%Z).
    apply Qmult_le_compat_r; [| apply Qlt_le_weak; apply pow2_pos].
    rewrite <- Zle_Qle. apply round_half_even_mono.
    + unfold scale2. simpl. apply Z.mul_pos_pos; [lia | apply Z.pow_pos_nonneg; lia].
    + unfold scale2. simpl. apply Z.mul_pos_pos; [lia | apply Z.pow_pos_nonneg; lia].
    + unfold scale2. simpl.
      assert (0 < 2 ^ Z.max k 0)%Z by (apply Z.pow_pos_nonneg; lia).
      assert (0 < 2 ^ Z.max (- k) 0)%Z by (apply Z.pow_pos_nonneg; lia).
      nia.
  - destruct (round_pos_bounds prec n1 d1 Hp Hn1 Hd1) as [_ B1].
    destruct (round_pos_bounds prec n2 d2 Hp Hn2 Hd2) as [B2 _].
    fold e1 in B1. fold e2 in B2.
    apply Qle_trans with (2 ^ (e1 + 1)); [exact B1 |].
    apply Qle_trans with (2 ^ e2); [apply pow2_le; lia | exact B2].
Qed.

(** A fraction that is a significand of [prec] bits times a power of two is
    left as it is. *)
Lemma round_pos_fixed (prec n d X j : Z) :
  (1 <= prec)%Z -> (0 < n)%Z -> (0 < d)%Z ->
  (2 ^ (prec - 1) <= X < 2 ^ prec)%Z ->
  inject_Z n == inject_Z X * 2 ^ j * inject_Z d ->
  round_pos prec n d == inject_Z X * 2 ^ j.
Proof.
  intros Hp Hn Hd [X1 X2] Hv.
  destruct (binade_spec n d Hn Hd) as [B1 B2].
  pose proof (inject_Z_pos _ Hd) as Pd.
  rewrite Zle_Qle, pow2_inject in X1 by lia.
  rewrite Zlt_Qlt, pow2_inject in X2 by lia.
  set (e := binade n d) in *.
  pose proof (pow2_pos (j - e)) as Hw.
  assert (Ew : inject_Z n * 2 ^ (- e) == inject_Z X * 2 ^ (j - e) * inject_Z d).
  { rewrite Hv. replace (j - e)%Z with (j + - e)%Z by lia. rewrite pow2_add. ring. }
  rewrite Ew in B1, B2.
  assert (W1 : 1 <= inject_Z X * 2 ^ (j - e)).
  { apply (Qmult_le_r _ _ _ Pd). lra. }
  assert (W2 : inject_Z X * 2 ^ (j - e) < 2).
  { apply (Qmult_lt_r _ _ _ Pd). lra. }
  assert (L1 : 2 ^ (prec - 1) * 2 ^ (j - e) <= inject_Z X * 2 ^ (j - e))
    by (apply Qmult_le_compat_r; lra).
  assert (L2 : inject_Z X * 2 ^ (j - e) < 2 ^ prec * 2 ^ (j - e))
    by (apply Qmult_lt_compat_r; assumption).
  rewrite <- pow2_add in L1, L2.
  assert (He : e = (prec - 1 + j)%Z).
  { assert (prec - 1 + (j - e) < 1)%Z by (apply pow2_lt_inv; change (2 ^ 1) with 2; lra).
    assert (0 < prec + (j - e))%Z by (apply pow2_lt_inv; change (2 ^ 0) with 1; lra).
    lia. }
  destruct (round_pos_significand prec n d Hp Hn Hd) as [-> _].
  fold e. replace (prec - 1 - e)%Z with (- j)%Z by lia.
  destruct (scale2_value (- j) n d Hd) as [HD V].
  assert (EN : fst (scale2 (- j) n d) = (X * snd (scale2 (- j) n d))%Z).
  { apply inject_Z_injective. rewrite inject_Z_mult, V, Hv.
    setoid_replace (inject_Z X * 2 ^ j * inject_Z d / inject_Z d * 2 ^ (- j))
      with (inject_Z X * (2 ^ j * 2 ^ (- j))) by (field; lra).
    rewrite <- pow2_add. replace (j + - j)%Z with 0%Z by lia.
    change (2 ^ 0) with 1. ring. }
  rewrite EN, round_half_even_exact by exact HD.
  replace (- - j)%Z with j by lia. reflexivity.
Qed.

(** What [round_pos] returns is such a fraction. *)
Lemma round_pos_representable (prec n d : Z) :
  (1 <= prec)%Z -> (0 < n)%Z -> (0 < d)%Z ->
  exists X j, (2 ^ (prec - 1) <= X < 2 ^ prec)%Z /\
              round_pos prec n d == inject_Z X * 2 ^ j.
Proof.
  intros Hp Hn Hd.
  destruct (round_pos_significand prec n d Hp Hn Hd) as [-> [M1 M2]].
  set (k := (prec - 1 - binade n d)%Z) in *.
  set (M := round_half_even (fst (scale2 k n d)) (snd (scale2 k n d))) in *.
  assert (Hlt : (2 ^ (prec - 1) < 2 ^ prec)%Z) by (apply Z.pow_lt_mono_r; lia).
  destruct (Z.eq_dec M (2 ^ prec)) as [E | N].
  - exists (2 ^ (prec - 1))%Z, (- k + 1)%Z. split; [lia |].
    rewrite E, pow2_succ, !pow2_inject by lia.
    setoid_replace (2 ^ (prec - 1) * (2 * 2 ^ (- k)))
      with (2 * 2 ^ (prec - 1) * 2 ^ (- k)) by ring.
    rewrite <- pow2_succ. replace (prec - 1 + 1)%Z with prec by lia. reflexivity.
  - exists M, (- k)%Z. split; [lia | reflexivity].
Qed.

(** ** Rounding a rational *)

Lemma fl_zero (prec : Z) (q : Q) : q == 0 -> fl prec q = 0.
Proof.
  destruct q as [[| n | n] d]; unfold Qeq; simpl; intro H; [reflexivity | lia | lia].
Qed.

Lemma fl_pos (prec : Z) (q : Q) : (1 <= prec)%Z -> 0 < q -> 0 < fl prec q.
Proof.
  intro Hp. destruct q as [[| n | n] d]; unfold Qlt at 1; simpl; intro H; [lia | | lia].
  unfold fl. simpl.
  destruct (round_pos_bounds prec (Zpos n) (Zpos d) Hp ltac:(lia) ltac:(lia)) as [B _].
  pose proof (pow2_pos (binade (Zpos n) (Zpos d))). lra.
Qed.

Lemma fl_nonneg (prec : Z) (q : Q) : (1 <= prec)%Z -> 0 <= q -> 0 <= fl prec q.
Proof.
  intros Hp H. destruct (Qlt_le_dec 0 q) as [L | L].
  - apply Qlt_le_weak. apply fl_pos; assumption.
  - rewrite (fl_zero prec q) by lra. lra.
Qed.

(** Rounding keeps the order of non-negative numbers. *)
Lemma fl_mono (prec : Z) (q1 q2 : Q) :
  (1 <= prec)%Z -> 0 <= q1 -> q1 <= q2 -> fl prec q1 <= fl prec q2.
Proof.
  intros Hp H1 H. destruct (Qlt_le_dec 0 q1) as [L | L].
  - assert (L2 : 0 < q2) by lra.
    destruct q1 as [[| n1 | n1] d1]; unfold Qlt in L; simpl in L; try lia.
    destruct q2 as [[| n2 | n2] d2]; unfold Qlt in L2; simpl in L2; try lia.
    unfold fl. simpl. apply round_pos_mono; try lia.
    unfold Qle in H. simpl in H. exact H.
  - rewrite (fl_zero prec q1) by lra. apply fl_nonneg; [exact Hp | lra].
Qed.

(** A number already rounded is left as it is. *)
Lemma fl_idempotent (prec : Z) (q : Q) :
  (1 <= prec)%Z -> 0 <= q -> fl prec (fl prec q) == fl prec q.
Proof.
  intros Hp H. destruct (Qlt_le_dec 0 q) as [L | L].
  - pose proof (fl_pos prec q Hp L) as Hy.
    assert (R : exists X j, (2 ^ (prec - 1) <= X < 2 ^ prec)%Z /\
                            fl prec q == inject_Z X * 2 ^ j).
    { destruct q as [[| n | n] d]; unfold Qlt in L; simpl in L; try lia.
      unfold fl. simpl. apply round_pos_representable; lia. }
    destruct R as [X [j [HX E]]].
    destruct (fl prec q) as [[| ny | ny] dy] eqn:Ey;
      unfold Qlt in Hy; simpl in Hy; try lia.
    unfold fl at 1. simpl.
    rewrite E. apply round_pos_fixed; try lia.
    rewrite <- E. rewrite (Qmake_Qdiv (Zpos ny) dy). field.
    unfold Qeq. simpl. lia.
  - rewrite (fl_zero prec q) by lra. reflexivity.
Qed.

Lemma fl32_one : fl32 1 == 1.
Proof. reflexivity. Qed.

Lemma fl32_zero (q : Q) : q == 0 -> fl32 q = 0.
Proof. apply fl_zero. Qed.

Lemma fl32_pos (q : Q) : 0 < q -> 0 < fl32 q.
Proof. apply fl_pos. lia. Qed.

Lemma fl32_nonneg (q : Q) : 0 <= q -> 0 <= fl32 q.
Proof. apply fl_nonneg. lia. Qed.

Lemma fl32_mono (q1 q2 : Q) : 0 <= q1 -> q1 <= q2 -> fl32 q1 <= fl32 q2.
Proof. apply fl_mono. lia. Qed.

Lemma fl_nonpos (prec : Z) (q : Q) : (1 <= prec)%Z -> q <= 0 -> fl prec q <= 0.
Proof.
  intros Hp H. destruct q as [[| n | n] d]; unfold Qle in H; simpl in H; try lia.
  - unfold fl. simpl. lra.
  - unfold fl. simpl.
    destruct (round_pos_bounds prec (Zpos n) (Zpos d) Hp ltac:(lia) ltac:(lia)) as [B _].
    pose proof (pow2_pos (binade (Zpos n) (Zpos d))). lra.
Qed.

(** ** The binary32 kernels *)

Lemma exp_b_range (x : Q) : x <= 0 -> 0 <= exp_b x <= 1.
Proof.
  intro H. unfold exp_b. destruct (Qfloor (x * (3 # 2)) <? -149)%Z.
  - lra.
  - split; [apply Qlt_le_weak; apply pow2_pos |].
    change 1 with (2 ^ 0). apply pow2_le.
    change 0%Z with (Qfloor 0). apply Qfloor_resp_le. lra.
Qed.

Lemma sum_b_from_pos (z : list Q) (acc : Q) :
  0 < acc -> (forall v, In v z -> 0 <= v) ->
  0 < fold_left (fun a v => fl32 (a + v)) z acc.
Proof.
  revert acc. induction z as [| w t IH]; intros acc Ha Hz; simpl.
  - exact Ha.
  - apply IH; [| intros; apply Hz; simpl; auto].
    apply fl32_pos. assert (0 <= w) by (apply Hz; simpl; auto). lra.
Qed.

Lemma sum_b_from_positive (z : list Q) (acc : Q) :
  0 <= acc -> (forall v, In v z -> 0 <= v) -> (exists v, In v z /\ 0 < v) ->
  0 < fold_left (fun a v => fl32 (a + v)) z acc.
Proof.
  revert acc. induction z as [| w t IH]; intros acc Ha Hz [v [Hv Hp]]; simpl.
  - destruct Hv.
  - assert (Hw : 0 <= w) by (apply Hz; simpl; auto).
    assert (Ht : forall u, In u t -> 0 <= u) by (intros; apply Hz; simpl; auto).
    destruct (Qlt_le_dec 0 w) as [L | L].
    + apply sum_b_from_pos; [apply fl32_pos; lra | exact Ht].
    + destruct Hv as [-> | Hv]; [exfalso; lra |].
      apply IH; [apply fl32_nonneg; lra | exact Ht | exists v; auto].
Qed.

(** A float sum of non-negative terms, one of them positive, is positive. *)
Lemma sum_b_positive (z : list Q) :
  (forall v, In v z -> 0 <= v) -> (exists v, In v z /\ 0 < v) -> 0 < sum_b z.
Proof.
  intros Hz Hp. unfold sum_b. apply sum_b_from_positive; [lra | exact Hz | exact Hp].
Qed.

Lemma sum_b_from_one (z : list Q) (acc : Q) :
  1 <= acc -> (forall v, In v z -> 0 <= v) ->
  1 <= fold_left (fun a v => fl32 (a + v)) z acc.
Proof.
  revert acc. induction z as [| w t IH]; intros acc Ha Hz; simpl.
  - exact Ha.
  - apply IH; [| intros; apply Hz; simpl; auto].
    assert (0 <= w) by (apply Hz; simpl; auto).
    rewrite <- fl32_one. apply fl32_mono; lra.
Qed.

(** A float sum of non-negative terms, one of them 1, is at least 1. *)
Lemma sum_b_ge_one (z : list Q) (acc : Q) :
  0 <= acc -> (forall v, In v z -> 0 <= v) -> In 1 z ->
  1 <= fold_left (fun a v => fl32 (a + v)) z acc.
Proof.
  revert acc. induction z as [| w t IH]; intros acc Ha Hz H1; simpl.
  - destruct H1.
  - assert (Hw : 0 <= w) by (apply Hz; simpl; auto).
    assert (Ht : forall u, In u t -> 0 <= u) by (intros; apply Hz; simpl; auto).
    destruct H1 as [-> | H1].
    + apply sum_b_from_one; [| exact Ht].
      rewrite <- fl32_one at 1. apply fl32_mono; lra.
    + apply IH; [apply fl32_nonneg; lra | exact Ht | exact H1].
Qed.

Lemma cumsum_from_b_length (acc : Q) (y : list Q) :
  length (cumsum_from_b acc y) = length y.
Proof.
  revert acc. induction y as [| v t IH]; intro acc; simpl.
  - reflexivity.
  - rewrite IH. reflexivity.
Qed.

(** The running sum in double precision never decreases, nor do its
    roundings to float32. *)
Lemma cumsum_from_b_ascending (acc : Q) (y : list Q) :
  0 <= acc -> fl64 acc == acc -> (forall v, In v y -> 0 <= v) ->
  StronglySorted Qle (cumsum_from_b acc y) /\
  (forall c, In c (cumsum_from_b acc y) -> fl32 acc <= c).
Proof.
  revert acc. induction y as [| w t IH]; intros acc Ha Hf Hy; simpl.
  - split; [constructor | intros c []].
  - assert (Hw : 0 <= w) by (apply Hy; simpl; auto).
    assert (Hs : acc <= fl64 (acc + w)).
    { rewrite <- Hf at 1. apply fl_mono; [lia | lra | lra]. }
    destruct (IH (fl64 (acc + w))) as [S B].
    + lra.
    + apply fl_idempotent; [lia | lra].
    + intros; apply Hy; simpl; auto.
    + split.
      * constructor; [exact S |]. apply Forall_forall. exact B.
      * intros c [<- | Hc]; [apply fl32_mono; assumption |].
        apply Qle_trans with (fl32 (fl64 (acc + w))); [apply fl32_mono; assumption |].
        apply B. exact Hc.
Qed.

Lemma row_maximum_In (t : list Q) (x0 : Q) : In (fold_left Qmaxb t x0) (x0 :: t).
Proof.
  revert x0. induction t as [| a t IH]; intro x0; simpl.
  - left. reflexivity.
  - destruct (IH (Qmaxb x0 a)) as [H | H].
    + rewrite <- H. unfold Qmaxb. destruct (Qle_bool x0 a); auto.
    + right. right. exact H.
Qed.

Lemma row_maximum_ge (t : list Q) (x0 v : Q) :
  In v (x0 :: t) -> v <= fold_left Qmaxb t x0.
Proof.
  assert (G : forall t a, a <= fold_left Qmaxb t a).
  { clear. induction t as [| b t IH]; intro a; simpl; [lra |].
    apply Qle_trans with (Qmaxb a b); [| apply IH].
    unfold Qmaxb. destruct (Qle_bool a b) eqn:E; [apply Qle_bool_iff; exact E | lra]. }
  revert x0. induction t as [| a t IH]; intros x0 H; simpl.
  - destruct H as [<- | []]. lra.
  - assert (M : x0 <= Qmaxb x0 a /\ a <= Qmaxb x0 a).
    { unfold Qmaxb. destruct (Qle_bool x0 a) eqn:E.
      - apply Qle_bool_iff in E. split; lra.
      - assert (a < x0) by (apply Qltb_true; unfold Qltb; rewrite E; reflexivity).
        split; lra. }
    destruct H as [<- | [<- | H]].
    + apply Qle_trans with (Qmaxb x0 a); [apply M | apply G].
    + apply Qle_trans with (Qmaxb x0 a); [apply M | apply G].
    + apply IH. right. exact H.
Qed.

Lemma div_b_nonneg (a s : Q) : 0 <= a -> 0 < s -> 0 <= div_b a s.
Proof.
  intros Ha Hs. unfold div_b. apply fl32_nonneg.
  apply Qle_shift_div_l; [exact Hs | lra].
Qed.

Lemma div_b_pos (a s : Q) : 0 < a -> 0 < s -> 0 < div_b a s.
Proof.
  intros Ha Hs. unfold div_b. apply fl32_pos. apply Qdiv_pos; assumption.
Qed.

Lemma softmax_b_exps_range (t : list Q) (x0 v : Q) :
  In v (map (fun v => exp_b (fl32 (v - fold_left Qmaxb t x0))) (x0 :: t)) ->
  0 <= v <= 1.
Proof.
  intro H. apply in_map_iff in H. destruct H as [a [<- Ha]].
  apply exp_b_range. apply fl_nonpos; [lia |].
  pose proof (row_maximum_ge t x0 a Ha). lra.
Qed.

Lemma softmax_b_exps_one (t : list Q) (x0 : Q) :
  In 1 (map (fun v => exp_b (fl32 (v - fold_left Qmaxb t x0))) (x0 :: t)).
Proof.
  apply in_map_iff. exists (fold_left Qmaxb t x0). split; [| apply row_maximum_In].
  rewrite (fl32_zero (fold_left Qmaxb t x0 - fold_left Qmaxb t x0)) by ring. reflexivity.
Qed.

Lemma weights_positive_sum (z : list Q) : weights z -> 0 < sum_b z.
Proof.
  intros [_ [Hz Hp]]. apply sum_b_positive; [| exact Hp].
  intros v Hv. apply (Hz v Hv).
Qed.

(** The binary32 kernels meet what the properties of TopPSampler use. *)
Lemma kernels_ok_binary32 : kernels_ok softmax_b cumsum_b sum_b div_b.
Proof.
  constructor.
  - intro x. destruct x as [| x0 t]; [reflexivity |].
    unfold softmax_b. rewrite !length_map. reflexivity.
  - intros x v H. destruct x as [| x0 t]; [destruct H |].
    unfold softmax_b in H. cbv zeta in H.
    apply in_map_iff in H. destruct H as [a [<- Ha]].
    apply softmax_b_exps_range in Ha.
    assert (Hs : 1 <= sum_b (map (fun v => exp_b (fl32 (v - fold_left Qmaxb t x0))) (x0 :: t))).
    { unfold sum_b. apply sum_b_ge_one; [lra | | apply softmax_b_exps_one].
      intros u Hu. apply softmax_b_exps_range in Hu. apply Hu. }
    split; [apply div_b_nonneg; lra |].
    unfold div_b. rewrite <- fl32_one. apply fl32_mono.
    + apply Qle_shift_div_l; lra.
    + apply Qle_shift_div_r; lra.
  - intros x Hne. destruct x as [| x0 t]; [congruence |].
    unfold softmax_b. cbv zeta.
    set (e := map (fun v => exp_b (fl32 (v - fold_left Qmaxb t x0))) (x0 :: t)).
    pose proof (softmax_b_exps_one t x0) as Hin. fold e in Hin.
    exists (div_b 1 (sum_b e)). split.
    + apply in_map_iff. exists 1. split; [reflexivity | exact Hin].
    + apply div_b_pos; [lra |]. apply sum_b_positive.
      * intros u Hu. unfold e in Hu. apply softmax_b_exps_range in Hu. apply Hu.
      * exists 1. split; [exact Hin | lra].
  - intro y. apply cumsum_from_b_length.
  - intros y Hy. unfold cumsum_b.
    apply cumsum_from_b_ascending; [lra | reflexivity | exact Hy].
  - intros z Hz. unfold div_b. rewrite (fl32_zero (0 / sum_b z)); [reflexivity |].
    unfold Qdiv. ring.
  - intros z a Hz Ha. apply div_b_nonneg; [| apply weights_positive_sum; exact Hz].
    destruct Hz as [_ [Hz _]]. apply (Hz a Ha).
  - intros z a Hz Hin Ha _. apply div_b_pos; [exact Ha |].
    apply weights_positive_sum. exact Hz.
Qed.

(** So do the exact ones, for any positive [exp]. *)
Lemma kernels_ok_exact (exp : Q -> Q) :
  (forall x, 0 < exp x) -> kernels_ok (softmax exp) cumsum tsum Qdiv.
Proof.
  intro exp_pos.
  assert (Hsum : forall z, weights z -> 0 < tsum z).
  { intros z [_ [Hz [v [Hv Hp]]]]. destruct (In_nth _ _ 0 Hv) as [i [Hi E]].
    rewrite <- E in Hp.
    pose proof (tsum_ge_nth z i (fun u Hu => proj1 (Hz u Hu)) Hi). lra. }
  constructor.
  - apply softmax_length.
  - intros x v H. split.
    + apply Qlt_le_weak. apply (softmax_In_pos exp exp_pos x v H).
    + assert (Hne : x <> []) by (destruct x; [destruct H | discriminate]).
      destruct (In_nth _ _ 0 H) as [i [Hi E]]. rewrite <- E.
      rewrite <- (softmax_sum_one exp exp_pos x Hne). apply tsum_ge_nth; [| exact Hi].
      intros u Hu. apply Qlt_le_weak. apply (softmax_In_pos exp exp_pos x u Hu).
  - intros x Hne. destruct (softmax exp x) as [| v t] eqn:E.
    + apply (f_equal (@length Q)) in E. rewrite softmax_length in E.
      destruct x; [congruence | discriminate].
    + exists v. split; [left; reflexivity |].
      apply (softmax_In_pos exp exp_pos x). rewrite E. left. reflexivity.
  - intro y. apply cumsum_from_length.
  - intros y Hy. apply cumsum_from_ascending. exact Hy.
  - intros z _. unfold Qdiv. ring.
  - intros z a Hz Ha. apply Qle_shift_div_l; [apply Hsum; exact Hz |].
    destruct Hz as [_ [Hz _]]. pose proof (Hz a Ha). lra.
  - intros z a Hz Hin Ha _. apply Qdiv_pos; [exact Ha | apply Hsum; exact Hz].
Qed.

(** The exact kernels give the sampler of the exact development. *)
Lemma TopPSampler_call_k_exact
    (exp : Q -> Q) (tie : nat -> nat -> bool)
    (self : TopPSampler) (logits : list Q) (draw : nat) :
  TopPSampler_call_k (softmax exp) cumsum tsum Qdiv (fun q => q) tie self logits draw
  = TopPSampler_call exp tie self logits draw.
Proof. reflexivity. Qed.

(** ** The binary32 kernels on concrete logits *)

(** Roundings to binary32: [0.04] and [0.2] round to
    [0.039999999105930328] and [0.20000000298023224], an integer of 25 bits
    half-way between two floats goes to the even one, and five times the
    rounded [0.04] gives [0.19999998807907104], below the rounded [0.2]. *)
Example binary32_roundings :
  fl32 (1 # 25) == 10737418 # 268435456 /\
  fl32 (1 # 5) == 13421773 # 67108864 /\
  fl32 16777217 == 16777216 /\ fl32 16777219 == 16777220 /\
  nth 4 (cumsum_b (repeat (fl32 (1 # 25)) 25)) 0 == 13421772 # 67108864.
Proof.
  repeat split; vm_compute; reflexivity.
Qed.

(** [x] holds the values at positions [0 .. length x - 1]: a property
    checked on every entry holds at every position. *)
Lemma forallb_nth (f : Q -> bool) (x : list Q) (m : nat) :
  forallb f x = true -> (m < length x)%nat -> f (nth m x 0) = true.
Proof.
  intros H Hm. rewrite forallb_forall in H. apply H. apply nth_In. exact Hm.
Qed.

(** A draw among weights with a single positive one returns it. *)
Lemma multinomial_single (probs : list Q) (i draw : nat) :
  probs <> [] -> existsb (fun v => Qltb v 0) probs = false ->
  Qeq_bool (tsum probs) 0 = false -> support probs = [i] ->
  multinomial probs draw = Ok i.
Proof.
  intros Hne H1 H2 H3. unfold multinomial.
  destruct probs as [| w t]; [congruence |].
  rewrite H1, H2, H3. simpl length. rewrite Nat.mod_1_r. reflexivity.
Qed.



Lemma TopPSampler_mask_leaves_candidates_witness :
  let logits := repeat 0 41 in
  let self := {| p := 1 |} in
  let cumulative := TopP_cumulative_probs_k softmax_b cumsum_b tie_low logits in
  logits <> [] /\ (Z.of_nat (length logits) <= 2 ^ 24)%Z /\
  (forall m, (m < length logits)%nat -> nth m cumulative 0 < fl32 (p self)) /\
  0 < nth 0 (TopP_filtered_probs_k softmax_b cumsum_b sum_b div_b fl32 tie_low
               self logits) 0 /\
  (forall draw, exists i,
     TopPSampler_call_k softmax_b cumsum_b sum_b div_b fl32 tie_low self logits draw
     = Ok i) /\
  TopP_cutoff_index_k softmax_b cumsum_b fl32 tie_low self logits = length logits /\
  TopP_masked_probs_k softmax_b cumsum_b fl32 tie_low self logits
  = TopP_sorted_probs_k softmax_b tie_low logits.
Proof.
  cbv zeta.
  assert (Hne : repeat 0 41 <> []) by discriminate.
  assert (Hv : (Z.of_nat (length (repeat 0 41)) <= 2 ^ 24)%Z) by (vm_compute; discriminate).
  assert (Hb : forall m, (m < length (repeat 0 41))%nat ->
                 nth m (TopP_cumulative_probs_k softmax_b cumsum_b tie_low (repeat 0 41)) 0
                 < fl32 (p {| p := 1 |})).
  { intros m Hm. apply Qltb_true.
    apply (forallb_nth (fun c => Qltb c (fl32 1))); [vm_compute; reflexivity |].
    replace (length (TopP_cumulative_probs_k softmax_b cumsum_b tie_low (repeat 0 41)))
      with (length (repeat 0 41)) by (vm_compute; reflexivity).
    exact Hm. }
  pose proof (TopPSampler_mask_leaves_candidates softmax_b cumsum_b sum_b div_b fl32
                tie_low kernels_ok_binary32 {| p := 1 |} (repeat 0 41) Hne Hv) as H.
  cbv zeta in H. destruct H as [H1 [H2 [_ [H4 _]]]].
  split; [exact Hne |]. split; [exact Hv |]. split; [exact Hb |].
  split; [exact H1 |]. split; [exact H2 |]. exact (H4 Hb).
Defined.

(** C6 as stated fails.  With [p = 1] on the logits [20, 0, 0] the two
    last tokens have a positive probability, yet the first cumulative sum is
    already 1 in binary32: [cutoff_index] is 0, both tokens are masked and
    every draw returns token 0. *)
Lemma TopPSampler_threshold_one_counterexample :
  let logits := [20; 0; 0] in
  let self := {| p := 1 |} in
  let sorted_probs := TopP_sorted_probs_k softmax_b tie_low logits in
  let masked_probs := TopP_masked_probs_k softmax_b cumsum_b fl32 tie_low self logits in
  0 < nth 1 sorted_probs 0 /\ 0 < nth 2 sorted_probs 0 /\
  TopP_cutoff_index_k softmax_b cumsum_b fl32 tie_low self logits = 0%nat /\
  nth 1 masked_probs 0 = 0 /\ nth 2 masked_probs 0 = 0 /\
  masked_probs <> sorted_probs /\
  forall draw,
    TopPSampler_call_k softmax_b cumsum_b sum_b div_b fl32 tie_low self logits draw
    = Ok 0%nat.
Proof.
  cbv zeta.
  split; [vm_compute; reflexivity |]. split; [vm_compute; reflexivity |].
  split; [vm_compute; reflexivity |].
  split; [vm_compute; reflexivity |]. split; [vm_compute; reflexivity |].
  split; [vm_compute; discriminate |].
  intro draw. unfold TopPSampler_call_k.
  destruct (TopP_nucleus_k softmax_b cumsum_b sum_b div_b fl32 tie_low
              {| p := 1 |} [20; 0; 0]) as [f s] eqn:E.
  assert (Ef : f = fst (TopP_nucleus_k softmax_b cumsum_b sum_b div_b fl32 tie_low
                          {| p := 1 |} [20; 0; 0])) by (rewrite E; reflexivity).
  assert (Es : s = snd (TopP_nucleus_k softmax_b cumsum_b sum_b div_b fl32 tie_low
                          {| p := 1 |} [20; 0; 0])) by (rewrite E; reflexivity).
  rewrite (multinomial_single f 0 draw).
  - rewrite Es. vm_compute. reflexivity.
  - rewrite Ef. vm_compute. discriminate.
  - rewrite Ef. vm_compute. reflexivity.
  - rewrite Ef. vm_compute. reflexivity.
  - rewrite Ef. vm_compute. reflexivity.
Qed.
